(** * Volleyball Nations League 2023 dashboard: filtering and aggregation

    A shallow embedding of [EDA_Streamlit_app.py].  The script is a straight
    pipeline: [load_data] -> sidebar filter -> six tabs, each one pandas
    call on [filtered_df].  A data frame is the list of its rows in index
    order, a Series the list of its values, a boolean mask a [list bool].

    Numbers.  [Age] is an integer column ([Z]).  The skill columns are
    decimal numbers of the CSV file; they are taken as exact rationals
    ([Q]), and the correlation, which needs a square root, is computed
    over the reals.  Rounding, overflow and underflow of float64 are
    therefore outside this model: statements about means and
    correlations are statements of exact arithmetic.  A missing value
    (NaN) only ever arises as the result of an aggregate and is the
    [None] of an [option]; the columns themselves hold no missing cell.
    Equality of two cells as float64 compares them, with NaN unequal to
    itself, is [cell_eq]. *)

From Stdlib Require Import List Bool Arith ZArith QArith String Lia.
From Stdlib Require Import Permutation Sorted.
From Stdlib Require Import Reals Lra Qreals.
From Stdlib Require Lqa OrderedTypeEx.
Import ListNotations.

Local Open Scope Z_scope.

(** ** Data model *)

(** One line of [VNL2023.csv].  [Set_] is the column [Set]. *)
Record Row : Type := mkRow {
  Player   : string;
  Country  : string;
  Position : string;
  Age      : Z;
  Attack   : Q;
  Block    : Q;
  Serve    : Q;
  Set_     : Q;
  Dig      : Q;
  Receive  : Q
}.

Definition DataFrame : Type := list Row.

(** The numeric columns a multiselect of the script can name. *)
Inductive Column : Type :=
  | cAttack | cBlock | cServe | cSet | cDig | cReceive | cAge.

Definition col_value (c : Column) (r : Row) : Q :=
  match c with
  | cAttack  => Attack r
  | cBlock   => Block r
  | cServe   => Serve r
  | cSet     => Set_ r
  | cDig     => Dig r
  | cReceive => Receive r
  | cAge     => inject_Z (Age r)
  end.

(** ** The pandas operations the script calls

    pandas is a dependency of the script.  Each operation is rendered as
    its documentation describes it, with the defaults the script leaves
    in place, on frames without missing cells. *)

Module Pandas.

Section Series.
Context {A : Type}.

(** [s.isin(values)]: element-wise membership. *)
Definition isin (eqb : A -> A -> bool) (s : list A) (values : list A)
  : list bool :=
  map (fun x => existsb (eqb x) values) s.

(** [m1 & m2] on two masks over the same index. *)
Definition mask_and (m1 m2 : list bool) : list bool :=
  map (fun p => fst p && snd p) (combine m1 m2).

(** [df[mask]]: the rows whose mask entry is [True], in index order. *)
Definition getitem_mask (df : list A) (mask : list bool) : list A :=
  map fst (filter snd (combine df mask)).

(** [s.unique()]: the distinct values in order of first appearance. *)
Fixpoint unique (eqb : A -> A -> bool) (s : list A) : list A :=
  match s with
  | [] => []
  | x :: t => x :: filter (fun y => negb (eqb x y)) (unique eqb t)
  end.

(** Stable insertion sort.  [after x y] says that [x] belongs strictly
    behind [y]; [x] is put in front of the first element it is not
    strictly behind, so rows with equal keys keep their order. *)
Fixpoint insert_by (after : A -> A -> bool) (x : A) (l : list A)
  : list A :=
  match l with
  | [] => [x]
  | y :: t => if after x y then y :: insert_by after x t else x :: l
  end.

Fixpoint sort_by (after : A -> A -> bool) (l : list A) : list A :=
  match l with
  | [] => []
  | x :: t => insert_by after x (sort_by after t)
  end.
End Series.

(** [s.between(left, right)], [inclusive="both"] by default. *)
Definition between (s : list Z) (left right : Z) : list bool :=
  map (fun x => (left <=? x) && (x <=? right)) s.

(** [s.min()] and [s.max()]; NaN ([None]) on an empty Series. *)
Definition series_min (s : list Z) : option Z :=
  match s with
  | [] => None
  | x :: t => Some (fold_left Z.min t x)
  end.

Definition series_max (s : list Z) : option Z :=
  match s with
  | [] => None
  | x :: t => Some (fold_left Z.max t x)
  end.

(** [s.value_counts()]: one entry per distinct value with the number of
    its occurrences, sorted by descending count. *)
Definition count_of (v : string) (s : list string) : nat :=
  List.length (filter (String.eqb v) s).

Definition value_counts (s : list string) : list (string * nat) :=
  sort_by (fun x y => (snd x <? snd y)%nat)
          (map (fun v => (v, count_of v s)) (unique String.eqb s)).

(** [df.groupby(key)], [sort=True]: the groups in ascending key order,
    each with its rows in index order. *)
Definition groupby (key : Row -> string) (df : DataFrame)
  : list (string * DataFrame) :=
  map (fun k => (k, filter (fun r => String.eqb (key r) k) df))
      (sort_by (fun x y => String.ltb y x)
               (unique String.eqb (map key df))).

(** [s.mean()]: the arithmetic mean; NaN on an empty Series.  The sum
    and the quotient are exact, where pandas rounds them in float64: a
    mean of the model and the mean pandas returns differ by that
    rounding. *)
Definition qsum (s : list Q) : Q := fold_right Qplus 0%Q s.

Definition mean (s : list Q) : option Q :=
  match s with
  | [] => None
  | _ :: _ => Some (qsum s / inject_Z (Z.of_nat (List.length s)))%Q
  end.

(** A frame of aggregates: row labels, column labels, cells by row. *)
Record Table (I C V : Type) : Type := mkTable {
  index   : list I;
  columns : list C;
  values  : list (list V)
}.
Arguments mkTable {I C V}.
Arguments index {I C V}.
Arguments columns {I C V}.
Arguments values {I C V}.

(** [df.groupby(key)[cols].mean()]: one row per group, one column per
    selected column. *)
Definition groupby_mean (key : Row -> string) (cols : list Column)
           (df : DataFrame) : Table string Column (option Q) :=
  let groups := groupby key df in
  mkTable (map fst groups) cols
          (map (fun g => map (fun c => mean (map (col_value c) (snd g)))
                             cols)
               groups).

(** [t.transpose()]. *)
Definition transpose {I C V : Type} (d : V) (t : Table I C V)
  : Table C I V :=
  mkTable (columns t) (index t)
          (map (fun j => map (fun row => nth j row d) (values t))
               (seq 0 (List.length (columns t)))).

(** [df.nlargest(n, col)], [keep="first"]: the first [n] rows of the
    frame ordered by descending [col], rows with equal values in index
    order; nothing when [n <= 0]. *)
Definition nlargest (n : Z) (col : Row -> Q) (df : DataFrame)
  : DataFrame :=
  if n <=? 0 then []
  else firstn (Z.to_nat n)
              (sort_by (fun x y => negb (Qle_bool (col y) (col x))) df).

(** [df.groupby(key).agg({'Player': 'count', 'Attack': 'mean',
    'Block': 'mean', 'Age': 'mean'})]: one row per group.  [count]
    counts the cells of the group that are not missing, here all. *)
Record CountryStat : Type := mkStat {
  st_Country : string;
  st_Player  : nat;
  st_Attack  : option Q;
  st_Block   : option Q;
  st_Age     : option Q
}.

Definition agg_country (g : string * DataFrame) : CountryStat :=
  mkStat (fst g)
         (List.length (map Player (snd g)))
         (mean (map Attack (snd g)))
         (mean (map Block (snd g)))
         (mean (map (fun r => inject_Z (Age r)) (snd g))).

(** [t.sort_values('Player', ascending=False)].  pandas sorts with an
    unstable quicksort by default and leaves the order of rows with equal
    counts open; the model fixes one such order (that of the groups). *)
Definition sort_values_Player_desc (t : list CountryStat)
  : list CountryStat :=
  sort_by (fun x y => (st_Player x <? st_Player y)%nat) t.

(** *** Pearson correlation

    [df.corr()], [method="pearson"], [min_periods=1]: the matrix of the
    pairwise correlation coefficients cov(x,y) / sqrt(ssd(x) * ssd(y)),
    where ssd is the sum of the squared deviations from the mean.  An
    entry is NaN when there are fewer observations than [min_periods] or
    when the divisor is zero.  The sums are sums of real numbers: where
    float64 would overflow to infinity or underflow to zero, and pandas
    would return NaN or 0 for it, the model returns the exact value. *)
Section Corr.
Local Open Scope R_scope.

Definition rsum (s : list R) : R := fold_right Rplus 0 s.

Definition rmean (s : list R) : R := rsum s / INR (List.length s).

Definition ssqdm (x : list R) : R :=
  rsum (map (fun v => (v - rmean x) * (v - rmean x)) x).

Definition covxy (x y : list R) : R :=
  rsum (map (fun p => (fst p - rmean x) * (snd p - rmean y))
            (combine x y)).

Definition pearson (x y : list R) : option R :=
  if (List.length x <? 1)%nat then None
  else
    let divisor := sqrt (ssqdm x * ssqdm y) in
    if Req_dec_T divisor 0 then None
    else Some (covxy x y / divisor).

Definition series (c : Column) (df : DataFrame) : list R :=
  map (fun r => Q2R (col_value c r)) df.

Definition corr (cols : list Column) (df : DataFrame)
  : list (list (option R)) :=
  map (fun ci => map (fun cj => pearson (series ci df) (series cj df))
                     cols)
      cols.
End Corr.

End Pandas.

(** ** The Streamlit services the script relies on *)

Module Streamlit.

(** What a tab shows: a chart (with its table), or [st.warning]. *)
Inductive Panel (A : Type) : Type :=
  | Chart (a : A)
  | Warning (msg : string).
Arguments Chart {A}.
Arguments Warning {A}.

(** The process-wide store behind [@st.cache_data] for a function
    without arguments, together with a probe counting the reads of the
    file. *)
Record Process : Type := mkProcess {
  cached : option DataFrame;
  reads  : nat
}.

(** What [pd.read_csv('VNL2023.csv')] finds at the time of a call:
    the parsed table, or [None] when it raises. *)
Definition FileState : Type := option DataFrame.

Definition Loader : Type :=
  FileState -> Process -> option DataFrame * Process.

(** [@st.cache_data]: a hit returns the stored value and does not run
    the function; a miss runs it and stores what it returned (nothing
    when it raised). *)
Definition cache_data (f : Loader) : Loader :=
  fun file p =>
    match cached p with
    | Some d => (Some d, p)
    | None =>
        let (r, p') := f file p in
        (r, mkProcess r (reads p'))
    end.

(** Successive calls, each seeing the file as it is at that time. *)
Fixpoint calls (f : Loader) (files : list FileState) (p : Process)
  : list (option DataFrame) * Process :=
  match files with
  | [] => ([], p)
  | file :: rest =>
      let (r, p1) := f file p in
      let (rs, p2) := calls f rest p1 in
      (r :: rs, p2)
  end.

(** [st.slider(label, min_value, max_value, value=(a, b))] with integer
    arguments and [value] within the bounds, before the user moves it:
    it raises ([None]) unless [min_value < max_value] and both bounds are
    integers that a JavaScript number holds exactly, of magnitude at most
    2^53 - 1; otherwise it returns [value]. *)
Definition js_safe (z : Z) : bool :=
  (- (2 ^ 53 - 1) <=? z) && (z <=? 2 ^ 53 - 1).

Definition slider (min_value max_value : Z) (value : Z * Z)
  : option (Z * Z) :=
  if (min_value <? max_value) && js_safe min_value && js_safe max_value
  then Some value
  else None.

End Streamlit.

(** ** The script *)

Import Pandas Streamlit.

(** [pd.read_csv('VNL2023.csv')]: one read of the file. *)
Definition read_csv : Loader :=
  fun file p => (file, mkProcess (cached p) (S (reads p))).

Definition load_data : Loader := cache_data read_csv.

(** The sidebar before the user touches it.  The multiselect returns its
    [default], [df['Position'].unique()]. *)
Definition default_selected_positions (df : DataFrame) : list string :=
  unique String.eqb (map Position df).

(** The arguments of the slider, [(int(df['Age'].min()),
    int(df['Age'].max()))]: the least and the greatest age.  [int] raises
    on an empty frame, whose minimum is NaN.  This is the pair handed to
    [st.sidebar.slider], not yet what the slider returns. *)
Definition default_age_range (df : DataFrame) : option (Z * Z) :=
  match series_min (map Age df), series_max (map Age df) with
  | Some lo, Some hi => Some (lo, hi)
  | _, _ => None
  end.

(** [age_range = st.sidebar.slider(..., min_value, max_value,
    value=(min_value, max_value))] in its initial state: the pair above,
    unless computing it or the slider raises. *)
Definition age_range (df : DataFrame) : option (Z * Z) :=
  match default_age_range df with
  | Some (lo, hi) => slider lo hi (lo, hi)
  | None => None
  end.

Definition filtered_df (df : DataFrame) (selected_positions : list string)
           (age_range : Z * Z) : DataFrame :=
  getitem_mask df
    (mask_and (isin String.eqb (map Position df) selected_positions)
              (between (map Age df) (fst age_range) (snd age_range))).

(** Tab 1. *)
Definition position_counts (filtered : DataFrame) : list (string * nat) :=
  value_counts (map Position filtered).

(** Tab 2. *)
Definition skills : list Column :=
  [cAttack; cBlock; cServe; cSet; cDig; cReceive].

Definition position_skills (filtered : DataFrame)
           (selected_skills : list Column)
  : Table Column string (option Q) :=
  transpose None (groupby_mean Position selected_skills filtered).

Definition tab2 (filtered : DataFrame) (selected_skills : list Column)
  : Panel (Table Column string (option Q)) :=
  match selected_skills with
  | [] => Warning "Please select at least one skill to display"
  | _ :: _ => Chart (position_skills filtered selected_skills)
  end.

(** Tab 4.  The displayed columns of a top attacker. *)
Record TopRow : Type := mkTop {
  top_Player   : string;
  top_Country  : string;
  top_Attack   : Q;
  top_Position : string;
  top_Age      : Z
}.

Definition top_columns (r : Row) : TopRow :=
  mkTop (Player r) (Country r) (Attack r) (Position r) (Age r).

Definition top_attack (filtered : DataFrame) (top_n : Z) : list TopRow :=
  map top_columns (nlargest top_n Attack filtered).

(** Tab 5.  [np.triu(np.ones_like(corr, dtype=bool))]: the entries on and
    above the diagonal are hidden. *)
Definition triu_ones (n : nat) : list (list bool) :=
  map (fun i => map (fun j => (i <=? j)%nat) (seq 0 n)) (seq 0 n).

Definition tab5 (filtered : DataFrame) (selected_corr_skills : list Column)
  : Panel (list (list (option R)) * list (list bool)) :=
  if (2 <=? List.length selected_corr_skills)%nat then
    let c := corr selected_corr_skills filtered in
    Chart (c, triu_ones (List.length c))
  else Warning "Please select at least 2 skills to see correlations".

(** Tab 6. *)
Definition country_stats (filtered : DataFrame) (min_players : Z)
  : list CountryStat :=
  filter (fun s => min_players <=? Z.of_nat (st_Player s))
         (sort_values_Player_desc
            (map agg_country (groupby Country filtered))).

Definition tab6 (filtered : DataFrame) (min_players : Z)
  : Panel (list CountryStat) :=
  match country_stats filtered min_players with
  | [] => Warning "No countries have at least min_players players with current filters"
  | s :: t => Chart (s :: t)
  end.

(** The example of the specification: five players. *)
Definition example_row (pos : string) (age : Z) : Row :=
  mkRow "p" "c" pos age 0 0 0 0 0 0.

Definition example_df : DataFrame :=
  [ example_row "OH" 20; example_row "OH" 25; example_row "MB" 30;
    example_row "S" 22; example_row "L" 28 ].

(** Eight rows for worked examples: three countries, five positions, two
    players with the same attack value. *)
Definition sample_df : DataFrame :=
  [ mkRow "P1" "JPN" "OH" 26 15.8 1.3 1.4 0 4.8 5.6;
    mkRow "P2" "ITA" "OP" 23 12.3 1.1 1.5 0 3.1 0.3;
    mkRow "P3" "NED" "OP" 31 15.3 0.7 2.1 0 3.3 0;
    mkRow "P4" "JPN" "OH" 27 12.3 0.5 1 0 3.8 4.2;
    mkRow "P5" "ITA" "S" 27 2.2 0.9 1.1 25.5 4.1 0;
    mkRow "P6" "JPN" "L" 28 0 0 0 0 9.1 6.7;
    mkRow "P7" "ITA" "MB" 26 6.9 2.4 0.8 0 1.2 0;
    mkRow "P8" "NED" "MB" 27 7.2 1.6 0.3 0 0.9 0 ]%Q.

(** ** Vocabulary of the statements *)

(** The row predicate of the sidebar filter. *)
Definition keeps (selected_positions : list string) (age_range : Z * Z)
           (r : Row) : bool :=
  existsb (String.eqb (Position r)) selected_positions
  && ((fst age_range <=? Age r) && (Age r <=? snd age_range)).

(** A sublist: some rows dropped, the others in their order. *)
Inductive Subseq {A : Type} : list A -> list A -> Prop :=
  | Subseq_nil : Subseq [] []
  | Subseq_keep x s l : Subseq s l -> Subseq (x :: s) (x :: l)
  | Subseq_drop x s l : Subseq s l -> Subseq s (x :: l).

(** [x] is not strictly behind [y]: [x] may stand in front of [y]. *)
Definition before_ok {A : Type} (after : A -> A -> bool) (x y : A) : Prop :=
  after x y = false.

(** The order of [nlargest]: [x] has a strictly lower value than [y]. *)
Definition lower (col : Row -> Q) (x y : Row) : bool :=
  negb (Qle_bool (col y) (col x)).

(** The rows of a country in a view. *)
Definition rows_of (c : string) (view : DataFrame) : DataFrame :=
  filter (fun r => String.eqb (Country r) c) view.

(** The entry in row [i] and column [j] of a matrix, when there is one. *)
Definition entry {V : Type} (M : list (list V)) (i j : nat) : option V :=
  match nth_error M i with
  | Some row => nth_error row j
  | None => None
  end.

(** A column is constant on a view when all its cells are equal. *)
Definition constant_on (c : Column) (view : DataFrame) : Prop :=
  forall r r', In r view -> In r' view -> (col_value c r == col_value c r')%Q.

(** [sns.heatmap(data, mask=mask)]: a cell is drawn where the mask is
    [False] and the cell holds a number; it is left blank ([None]) where
    the mask is [True], and also where the cell is NaN, which seaborn
    masks on its own. *)
Definition shown (data : list (list (option R))) (mask : list (list bool))
           (i j : nat) : option R :=
  match entry mask i j, entry data i j with
  | Some false, Some (Some c) => Some c
  | _, _ => None
  end.

(** [a == b] on two float64 cells: a number equals itself; NaN equals
    nothing, itself included. *)
Definition cell_eq (a b : option R) : Prop :=
  match a, b with
  | Some x, Some y => x = y
  | _, _ => False
  end.

(** The row number of the first cell of a column that holds [p] (the
    length of the column when none does). *)
Fixpoint first_index (p : string) (s : list string) : nat :=
  match s with
  | [] => 0%nat
  | x :: t => if String.eqb x p then 0%nat else S (first_index p t)
  end.

(** A list taken from the front of another. *)
Definition Prefix {A : Type} (s l : list A) : Prop :=
  exists k, s = firstn k l.

(** ** Masks and boolean indexing *)

Section MaskFacts.
Context {A : Type}.

Lemma mask_and_map (f g : A -> bool) (l : list A) :
  mask_and (map f l) (map g l) = map (fun x => f x && g x) l.
Proof.
  unfold mask_and.
  induction l as [| x l IH]; simpl; [reflexivity | now rewrite IH].
Qed.

Lemma getitem_mask_map (f : A -> bool) (l : list A) :
  getitem_mask l (map f l) = filter f l.
Proof.
  unfold getitem_mask.
  induction l as [| x l IH]; simpl; [reflexivity |].
  destruct (f x); simpl; now rewrite IH.
Qed.

Lemma filter_length_le (f : A -> bool) (l : list A) :
  (List.length (filter f l) <= List.length l)%nat.
Proof.
  induction l as [| x l IH]; simpl; [lia |].
  destruct (f x); simpl; lia.
Qed.

Lemma filter_all_true (f : A -> bool) (l : list A) :
  (forall x, In x l -> f x = true) -> filter f l = l.
Proof.
  induction l as [| x l IH]; simpl; intros H; [reflexivity |].
  rewrite (H x (or_introl eq_refl)).
  f_equal. apply IH. intros y Hy. apply H. now right.
Qed.

Lemma filter_all_false (f : A -> bool) (l : list A) :
  (forall x, In x l -> f x = false) -> filter f l = [].
Proof.
  induction l as [| x l IH]; simpl; intros H; [reflexivity |].
  rewrite (H x (or_introl eq_refl)).
  apply IH. intros y Hy. apply H. now right.
Qed.
End MaskFacts.


Lemma keeps_iff ps lo hi r :
  keeps ps (lo, hi) r = true <-> In (Position r) ps /\ lo <= Age r <= hi.
Proof.
  unfold keeps; simpl.
  rewrite !andb_true_iff, existsb_exists, !Z.leb_le.
  split.
  - intros [[p [Hp He]] Hage]. apply String.eqb_eq in He. subst p. tauto.
  - intros [Hp Hage]. split; [| exact Hage].
    exists (Position r). split; [exact Hp | apply String.eqb_refl].
Qed.

Lemma filtered_df_filter df ps ar :
  filtered_df df ps ar = filter (keeps ps ar) df.
Proof.
  unfold filtered_df, isin, between.
  rewrite !map_map, mask_and_map.
  exact (getitem_mask_map (keeps ps ar) df).
Qed.


Lemma Subseq_filter {A : Type} (f : A -> bool) (l : list A) :
  Subseq (filter f l) l.
Proof.
  induction l as [| x l IH]; simpl; [constructor |].
  destruct (f x); now constructor.
Qed.

(** C1.  The filtered view keeps exactly the rows whose position is one of
    the selected positions and whose age lies in the closed interval
    [age_min, age_max]: row by row, in index order, each row of the data
    set is kept if and only if it satisfies the predicate.  Hence the view
    is a sublist of the data set and has at most as many rows. *)
Theorem filtered_df_exact (df : DataFrame) (positions : list string)
        (age_min age_max : Z) :
  let view := filtered_df df positions (age_min, age_max) in
  (forall r, keeps positions (age_min, age_max) r = true <->
             In (Position r) positions /\ age_min <= Age r <= age_max)
  /\ view = filter (keeps positions (age_min, age_max)) df
  /\ (forall r, In r view <->
                In r df /\ In (Position r) positions
                /\ age_min <= Age r <= age_max)
  /\ Subseq view df
  /\ (List.length view <= List.length df)%nat.
Proof.
  intros view. subst view. rewrite filtered_df_filter.
  split; [intros r; apply keeps_iff |].
  split; [reflexivity |].
  split; [| split].
  - intros r. rewrite filter_In, keeps_iff. tauto.
  - apply Subseq_filter.
  - apply filter_length_le.
Qed.

(** C7.  With no position selected the filtered view has no row, whatever
    the data set and the age range; the filter is a total function, so
    this is a result and not an error. *)
Theorem filtered_df_no_position (df : DataFrame) (age_range : Z * Z) :
  filtered_df df [] age_range = [].
Proof.
  rewrite filtered_df_filter.
  apply filter_all_false. intros r _. reflexivity.
Qed.

(** ** The default state of the sidebar *)

Lemma unique_In {A : Type} (eqb : A -> A -> bool)
      (eqb_eq : forall x y, eqb x y = true <-> x = y) (l : list A) x :
  In x (unique eqb l) <-> In x l.
Proof.
  induction l as [| a l IH]; simpl; [tauto |].
  rewrite filter_In, IH, negb_true_iff.
  split.
  - intros [H | [H _]]; auto.
  - intros [H | H]; [now left |].
    destruct (eqb a x) eqn:E.
    + left. now apply eqb_eq.
    + right. auto.
Qed.

Lemma NoDup_filter {A : Type} (f : A -> bool) (l : list A) :
  NoDup l -> NoDup (filter f l).
Proof.
  induction 1 as [| x l Hx Hl IH]; simpl; [constructor |].
  destruct (f x); [| exact IH].
  constructor; [| exact IH].
  rewrite filter_In. tauto.
Qed.

Lemma unique_NoDup {A : Type} (eqb : A -> A -> bool)
      (eqb_eq : forall x y, eqb x y = true <-> x = y) (l : list A) :
  NoDup (unique eqb l).
Proof.
  induction l as [| a l IH]; simpl; constructor.
  - rewrite filter_In, negb_true_iff.
    intros [_ H]. assert (E : eqb a a = true) by now apply eqb_eq.
    congruence.
  - now apply NoDup_filter.
Qed.

Lemma fold_min_le (l : list Z) (a : Z) :
  fold_left Z.min l a <= a /\ forall x, In x l -> fold_left Z.min l a <= x.
Proof.
  revert a. induction l as [| y l IH]; intros a; simpl.
  - split; [lia | tauto].
  - destruct (IH (Z.min a y)) as [H1 H2].
    split; [lia |].
    intros x [-> | Hx]; [lia | now apply H2].
Qed.

Lemma fold_max_ge (l : list Z) (a : Z) :
  a <= fold_left Z.max l a /\ forall x, In x l -> x <= fold_left Z.max l a.
Proof.
  revert a. induction l as [| y l IH]; intros a; simpl.
  - split; [lia | tauto].
  - destruct (IH (Z.max a y)) as [H1 H2].
    split; [lia |].
    intros x [-> | Hx]; [lia | now apply H2].
Qed.

Lemma default_age_range_bounds df lo hi :
  default_age_range df = Some (lo, hi) ->
  forall r, In r df -> lo <= Age r <= hi.
Proof.
  unfold default_age_range.
  destruct df as [| r0 df]; simpl; [discriminate |].
  intros E. injection E as <- <-.
  destruct (fold_min_le (map Age df) (Age r0)) as [Hm1 Hm2].
  destruct (fold_max_ge (map Age df) (Age r0)) as [HM1 HM2].
  intros r [-> | Hr]; [lia |].
  split; [apply Hm2 | apply HM2]; now apply in_map.
Qed.

Lemma default_filter_keeps_all (df : DataFrame) (ar : Z * Z) :
  default_age_range df = Some ar ->
  filtered_df df (default_selected_positions df) ar = df.
Proof.
  destruct ar as [lo hi]. intros E.
  rewrite filtered_df_filter. apply filter_all_true.
  intros r Hr. apply keeps_iff. split.
  - unfold default_selected_positions.
    apply (unique_In String.eqb String.eqb_eq).
    now apply in_map.
  - now apply (default_age_range_bounds df).
Qed.

Lemma age_range_Some (df : DataFrame) (ar : Z * Z) :
  age_range df = Some ar ->
  default_age_range df = Some ar
  /\ fst ar < snd ar
  /\ js_safe (fst ar) = true /\ js_safe (snd ar) = true.
Proof.
  unfold age_range, slider.
  destruct (default_age_range df) as [[lo hi] |]; [| discriminate].
  destruct (Z.ltb_spec lo hi) as [Hlt | _]; simpl; [| discriminate].
  destruct (js_safe lo) eqn:Elo; simpl; [| discriminate].
  destruct (js_safe hi) eqn:Ehi; simpl; [| discriminate].
  intros E. injection E as <-. simpl.
  split; [reflexivity | split; [exact Hlt | split; assumption]].
Qed.

(** C5.  Whenever the sidebar comes up in its default state - every
    distinct position of the data set selected, and the slider returning
    the range from the least to the greatest age of the data set - the
    filtered view is the data set itself, row for row. *)
Theorem default_filter_is_identity (df : DataFrame) (ar : Z * Z) :
  age_range df = Some ar ->
  default_age_range df = Some ar
  /\ filtered_df df (default_selected_positions df) ar = df.
Proof.
  intros E. apply age_range_Some in E. destruct E as [E _].
  split; [exact E | now apply default_filter_keeps_all].
Qed.

(** ** The stable insertion sort *)

Section SortBy.
Context {A : Type}.
Variable after : A -> A -> bool.


Lemma insert_by_perm x l : Permutation (x :: l) (insert_by after x l).
Proof using Type.
  induction l as [| y t IH]; simpl; [apply Permutation_refl |].
  destruct (after x y); [| apply Permutation_refl].
  apply perm_trans with (y :: x :: t); [apply perm_swap |].
  now apply perm_skip.
Qed.

Lemma sort_by_perm l : Permutation l (sort_by after l).
Proof using Type.
  induction l as [| x t IH]; simpl; [constructor |].
  apply perm_trans with (x :: sort_by after t).
  - now apply perm_skip.
  - apply insert_by_perm.
Qed.

Lemma sort_by_In l x : In x (sort_by after l) <-> In x l.
Proof using Type.
  split; apply Permutation_in;
    [apply Permutation_sym |]; apply sort_by_perm.
Qed.

Lemma sort_by_length l : List.length (sort_by after l) = List.length l.
Proof using Type.
  symmetry. apply Permutation_length, sort_by_perm.
Qed.



Hypothesis after_asym : forall x y, after x y = true -> after y x = false.
Hypothesis after_negtrans :
  forall x y z, after x y = false -> after y z = false -> after x z = false.

Lemma insert_by_sorted x l :
  StronglySorted (before_ok after) l ->
  StronglySorted (before_ok after) (insert_by after x l).
Proof using after_asym after_negtrans.
  induction 1 as [| y t Ht IH Hy]; simpl.
  - constructor; constructor.
  - destruct (after x y) eqn:E.
    + constructor; [exact IH |].
      apply Forall_forall. intros z Hz.
      apply (Permutation_in _ (Permutation_sym (insert_by_perm x t))) in Hz.
      destruct Hz as [<- | Hz].
      * now apply after_asym.
      * rewrite Forall_forall in Hy. now apply Hy.
    + constructor; [now constructor |].
      constructor; [exact E |].
      rewrite Forall_forall in *. intros z Hz.
      apply after_negtrans with y; [exact E | now apply Hy].
Qed.

Lemma sort_by_sorted l : StronglySorted (before_ok after) (sort_by after l).
Proof using after_asym after_negtrans.
  induction l as [| x t IH]; simpl; [constructor |].
  now apply insert_by_sorted.
Qed.
End SortBy.

Lemma StronglySorted_impl {A : Type} (R S : A -> A -> Prop) (l : list A) :
  (forall x y, R x y -> S x y) -> StronglySorted R l -> StronglySorted S l.
Proof.
  intros HRS. induction 1 as [| x l Hl IH Hx]; constructor; [exact IH |].
  rewrite Forall_forall in *. auto.
Qed.


Lemma StronglySorted_filter {A : Type} (R : A -> A -> Prop) f (l : list A) :
  StronglySorted R l -> StronglySorted R (filter f l).
Proof.
  induction 1 as [| x l Hl IH Hx]; simpl; [constructor |].
  destruct (f x); [| exact IH].
  constructor; [exact IH |].
  rewrite Forall_forall in *. intros y Hy. apply Hx.
  apply filter_In in Hy. tauto.
Qed.



(** ** Top attackers *)

Section NLargest.
Variable col : Row -> Q.






Lemma nlargest_unfold n df :
  nlargest n col df = firstn (Z.to_nat n) (sort_by (lower col) df).
Proof using Type.
  unfold nlargest. destruct (Z.leb_spec n 0) as [H | H]; [| reflexivity].
  replace (Z.to_nat n) with 0%nat by lia. reflexivity.
Qed.
End NLargest.


(** ** Counting and grouping *)

Lemma count_of_count_occ (v : string) (s : list string) :
  count_of v s = count_occ string_dec s v.
Proof.
  unfold count_of. induction s as [| x s IH]; simpl; [reflexivity |].
  destruct (string_dec x v) as [-> | Hne].
  - rewrite String.eqb_refl. simpl. now rewrite IH.
  - destruct (String.eqb_spec v x) as [-> | _]; [contradiction | exact IH].
Qed.

Lemma count_of_pos (v : string) (s : list string) :
  In v s -> (1 <= count_of v s)%nat.
Proof.
  rewrite count_of_count_occ. intros H.
  apply (count_occ_In string_dec) in H. lia.
Qed.

Lemma ltb_asym (a b : nat) : (a <? b)%nat = true -> (b <? a)%nat = false.
Proof. rewrite Nat.ltb_lt, Nat.ltb_ge. lia. Qed.

Lemma ltb_negtrans (a b c : nat) :
  (a <? b)%nat = false -> (b <? c)%nat = false -> (a <? c)%nat = false.
Proof. rewrite !Nat.ltb_ge. lia. Qed.

(** Sorting by a descending natural-number key. *)
Lemma sort_by_desc_nat {A : Type} (key : A -> nat) (l : list A) :
  StronglySorted (fun a b => (key b <= key a)%nat)
                 (sort_by (fun x y => (key x <? key y)%nat) l).
Proof.
  apply StronglySorted_impl
    with (R := before_ok (fun x y => (key x <? key y)%nat)).
  - unfold before_ok. intros x y. now rewrite Nat.ltb_ge.
  - apply sort_by_sorted.
    + intros x y. apply ltb_asym.
    + intros x y z. apply ltb_negtrans.
Qed.

(** C9.  [position_counts] lists every position that occurs in the view,
    once, with the number of rows that have it, in descending order of
    that number; on a view without rows the list is empty; on the five
    rows of the example it is OH:2, MB:1, S:1, L:1. *)
Theorem position_counts_desc (view : DataFrame) :
  let pc := position_counts view in
  StronglySorted (fun a b => (snd b <= snd a)%nat) pc
  /\ NoDup (map fst pc)
  /\ (forall p c, In (p, c) pc <->
                  In p (map Position view)
                  /\ c = count_occ string_dec (map Position view) p)
  /\ position_counts [] = []
  /\ position_counts example_df
     = [("OH", 2); ("MB", 1); ("S", 1); ("L", 1)]%nat%string.
Proof.
  intros pc. subst pc. unfold position_counts at 1 2 3, value_counts.
  set (s := map Position view).
  split; [| split; [| split; [| split]]].
  - apply sort_by_desc_nat.
  - apply Permutation_NoDup
      with (l := map fst (map (fun v => (v, count_of v s))
                              (unique String.eqb s))).
    + apply Permutation_map, sort_by_perm.
    + rewrite map_map. simpl. rewrite map_id.
      apply unique_NoDup, String.eqb_eq.
  - intros p c. rewrite sort_by_In, in_map_iff. split.
    + intros [v [E Hv]]. injection E as Ev Ec. subst v.
      apply (proj1 (unique_In String.eqb String.eqb_eq s p)) in Hv.
      split; [exact Hv |]. rewrite <- Ec. apply count_of_count_occ.
    + intros [Hp Hc]. exists p. split.
      * rewrite Hc. now rewrite count_of_count_occ.
      * now apply (unique_In String.eqb String.eqb_eq).
  - reflexivity.
  - vm_compute. reflexivity.
Qed.

Lemma groupby_keys (key : Row -> string) (df : DataFrame) :
  Permutation (unique String.eqb (map key df)) (map fst (groupby key df)).
Proof.
  unfold groupby. rewrite map_map. simpl. rewrite map_id.
  apply sort_by_perm.
Qed.

Lemma groupby_In (key : Row -> string) (df : DataFrame) g :
  In g (groupby key df) <->
  In (fst g) (map key df)
  /\ snd g = filter (fun r => String.eqb (key r) (fst g)) df.
Proof.
  unfold groupby. split.
  - intros H. apply in_map_iff in H. destruct H as [k [E Hk]].
    subst g. simpl. split; [| reflexivity].
    apply (proj1 (sort_by_In _ _ _)) in Hk.
    exact (proj1 (unique_In String.eqb String.eqb_eq _ _) Hk).
  - intros [Hk Hs]. apply in_map_iff. exists (fst g). split.
    + rewrite <- Hs. now destruct g.
    + apply (proj2 (sort_by_In _ _ _)).
      exact (proj2 (unique_In String.eqb String.eqb_eq _ _) Hk).
Qed.

Lemma groupby_NoDup (key : Row -> string) (df : DataFrame) :
  NoDup (map fst (groupby key df)).
Proof.
  apply (Permutation_NoDup (groupby_keys key df)).
  apply unique_NoDup, String.eqb_eq.
Qed.

(** No group is empty: a key is a key of some row. *)
Lemma group_nonempty (key : Row -> string) (df : DataFrame) k :
  In k (map key df) -> filter (fun r => String.eqb (key r) k) df <> [].
Proof.
  intros Hk E. apply in_map_iff in Hk. destruct Hk as [r [<- Hr]].
  assert (H : In r (filter (fun r0 => String.eqb (key r0) (key r)) df)).
  { apply filter_In. split; [exact Hr | apply String.eqb_refl]. }
  rewrite E in H. contradiction.
Qed.

Lemma mean_nonempty (s : list Q) :
  s <> [] ->
  mean s = Some (qsum s / inject_Z (Z.of_nat (List.length s)))%Q.
Proof. destruct s; [congruence | reflexivity]. Qed.

Lemma NoDup_map_filter {X K : Type} (key : X -> K) (keep : X -> bool)
      (rows : list X) :
  NoDup (map key rows) -> NoDup (map key (filter keep rows)).
Proof.
  intros Hnd. induction rows as [| x rows IH]; simpl in *; [constructor |].
  apply NoDup_cons_iff in Hnd. destruct Hnd as [Hx Hrest].
  destruct (keep x); simpl; [| now apply IH].
  constructor; [| now apply IH].
  intros Hin. apply Hx.
  apply in_map_iff in Hin. destruct Hin as [y [E Hy]].
  apply filter_In in Hy. apply in_map_iff. exists y. tauto.
Qed.


Lemma country_stats_In view min_players s :
  In s (country_stats view min_players) <->
  In (st_Country s) (map Country view)
  /\ s = agg_country (st_Country s, rows_of (st_Country s) view)
  /\ min_players <= Z.of_nat (st_Player s).
Proof.
  unfold country_stats, sort_values_Player_desc.
  rewrite filter_In, sort_by_In, in_map_iff, Z.leb_le.
  split.
  - intros [[g [<- Hg]] Hmin]. apply groupby_In in Hg.
    destruct Hg as [Hk Hs]. destruct g as [k rows]. simpl in *.
    subst rows. auto.
  - intros [Hk [Hs Hmin]]. split; [| exact Hmin].
    exists (st_Country s, rows_of (st_Country s) view).
    split; [now symmetry |].
    apply groupby_In. simpl. auto.
Qed.

(** C4.  [country_stats view min_players] has one row per country of the
    view that has at least [min_players] players, and no other row; the
    row of a country gives the number of its players in the view and the
    arithmetic means of their attack, block and age; the rows are in
    descending order of the number of players.  With [min_players = 1]
    every country of the view has its row; when every country has fewer
    than [min_players] players there is no row at all. *)
Theorem country_stats_threshold (view : DataFrame) (min_players : Z) :
  let cs := country_stats view min_players in
  let size (c : string) := List.length (rows_of c view) in
  let mean_of (f : Row -> Q) (c : string) :=
    (qsum (map f (rows_of c view)) / inject_Z (Z.of_nat (size c)))%Q in
  (forall s, In s cs ->
     st_Player s = size (st_Country s)
     /\ st_Attack s = Some (mean_of Attack (st_Country s))
     /\ st_Block s = Some (mean_of Block (st_Country s))
     /\ st_Age s
        = Some (mean_of (fun r => inject_Z (Age r)) (st_Country s)))
  /\ NoDup (map st_Country cs)
  /\ (forall c, In c (map st_Country cs) <->
                In c (map Country view) /\ min_players <= Z.of_nat (size c))
  /\ StronglySorted (fun a b => (st_Player b <= st_Player a)%nat) cs
  /\ (min_players = 1 ->
      forall c, In c (map Country view) -> In c (map st_Country cs))
  /\ ((forall c, Z.of_nat (size c) < min_players) -> cs = []).
Proof.
  intros cs size mean_of.
  assert (Hrow : forall s, In s cs ->
            In (st_Country s) (map Country view)
            /\ st_Player s = size (st_Country s)
            /\ min_players <= Z.of_nat (size (st_Country s))).
  { intros s Hs. apply country_stats_In in Hs.
    destruct Hs as [Hc [E Hmin]]. split; [exact Hc |].
    assert (Hn : st_Player s = size (st_Country s)).
    { rewrite E at 1. simpl. apply length_map. }
    split; [exact Hn | now rewrite <- Hn]. }
  assert (Hin : forall c, In c (map st_Country cs) <->
            In c (map Country view) /\ min_players <= Z.of_nat (size c)).
  { intros c. rewrite in_map_iff. split.
    - intros [s [<- Hs]]. destruct (Hrow s Hs) as [H1 [_ H3]]. auto.
    - intros [Hc Hmin].
      exists (agg_country (c, rows_of c view)). split; [reflexivity |].
      apply country_stats_In. simpl. rewrite length_map. auto. }
  split; [| split; [| split; [exact Hin | split; [| split]]]].
  - intros s Hs. destruct (Hrow s Hs) as [Hc [Hn _]].
    split; [exact Hn |].
    apply country_stats_In in Hs. destruct Hs as [_ [E _]].
    pose proof (group_nonempty Country view _ Hc) as Hne.
    fold (rows_of (st_Country s) view) in Hne.
    unfold mean_of, size.
    repeat split; rewrite E at 1; simpl;
      rewrite mean_nonempty, length_map; try reflexivity;
      intros E0; apply map_eq_nil in E0; contradiction.
  - unfold cs, country_stats, sort_values_Player_desc.
    apply NoDup_map_filter.
    apply Permutation_NoDup
      with (l := map st_Country (map agg_country (groupby Country view))).
    + apply Permutation_map, sort_by_perm.
    + rewrite map_map. simpl. apply groupby_NoDup.
  - unfold cs, country_stats, sort_values_Player_desc.
    apply StronglySorted_filter, sort_by_desc_nat.
  - intros -> c Hc. apply Hin. split; [exact Hc |].
    pose proof (group_nonempty Country view c Hc) as Hne.
    unfold size, rows_of. destruct (filter _ view); [congruence |].
    simpl. lia.
  - intros Hsmall. destruct cs as [| s t]; [reflexivity |].
    destruct (Hrow s (or_introl eq_refl)) as [_ [_ Hmin]].
    specialize (Hsmall (st_Country s)). lia.
Qed.

(** ** Mean skill ratings by position *)

Lemma nth_map_seq {B : Type} (F : nat -> B) (n i : nat) (d : B) :
  (i < n)%nat -> nth i (map F (seq 0 n)) d = F i.
Proof.
  intros Hi. apply nth_error_nth.
  rewrite nth_error_map, nth_error_seq.
  destruct (Nat.ltb_spec i n); [reflexivity | lia].
Qed.

Lemma nth_error_map_Some {A B : Type} (f : A -> B) (l : list A) i b :
  nth_error (map f l) i = Some b ->
  exists a, nth_error l i = Some a /\ f a = b.
Proof.
  rewrite nth_error_map. destruct (nth_error l i) as [a |]; simpl;
    [| discriminate].
  intros E. injection E as <-. now exists a.
Qed.

Lemma position_skills_cell view selected_skills i s j g :
  nth_error selected_skills i = Some s ->
  nth_error (groupby Position view) j = Some g ->
  nth_error (nth i (values (position_skills view selected_skills)) []) j
  = Some (mean (map (col_value s) (snd g))).
Proof.
  intros Hs Hg. unfold position_skills, transpose, groupby_mean. simpl.
  assert (Hi : (i < List.length selected_skills)%nat).
  { apply nth_error_Some. congruence. }
  rewrite nth_map_seq by exact Hi.
  rewrite nth_error_map, nth_error_map.
  unfold DataFrame in *. rewrite Hg. simpl. f_equal.
  apply nth_error_nth. now rewrite nth_error_map, Hs.
Qed.

(** C8.  For a non-empty selection of skills, [position_skills] is a table
    with one row per selected skill and one column per position that has at
    least one row in the view, and no other column.  Each cell is the
    arithmetic mean of the skill over the rows of the position; that list
    of rows is never empty, so no mean of zero elements is taken and no
    cell is NaN. *)
Theorem position_skills_shape (view : DataFrame)
        (selected_skills : list Column) :
  selected_skills <> [] ->
  let t := position_skills view selected_skills in
  tab2 view selected_skills = Chart t
  /\ index t = selected_skills
  /\ NoDup (columns t)
  /\ (forall p, In p (columns t) <-> exists r, In r view /\ Position r = p)
  /\ List.length (values t) = List.length selected_skills
  /\ Forall (fun row => List.length row = List.length (columns t)) (values t)
  /\ (forall i s j p,
        nth_error selected_skills i = Some s ->
        nth_error (columns t) j = Some p ->
        let rows := filter (fun r => String.eqb (Position r) p) view in
        rows <> []
        /\ nth_error (nth i (values t) []) j
           = Some (Some (qsum (map (col_value s) rows)
                         / inject_Z (Z.of_nat (List.length rows)))%Q)).
Proof.
  intros Hne t.
  split; [| split; [| split; [| split; [| split; [| split]]]]].
  - unfold tab2. destruct selected_skills; [congruence | reflexivity].
  - reflexivity.
  - apply groupby_NoDup.
  - intros p. simpl. split.
    + intros Hp. apply in_map_iff in Hp. destruct Hp as [g [<- Hg]].
      apply groupby_In in Hg. destruct Hg as [Hk _].
      apply in_map_iff in Hk. destruct Hk as [r [E Hr]]. now exists r.
    + intros [r [Hr <-]]. apply in_map_iff.
      exists (Position r, filter (fun r0 => String.eqb (Position r0)
                                                      (Position r)) view).
      split; [reflexivity |]. apply groupby_In. simpl.
      split; [now apply in_map | reflexivity].
  - simpl. now rewrite length_map, length_seq.
  - simpl. apply Forall_forall. intros row Hrow.
    apply in_map_iff in Hrow. destruct Hrow as [i [<- _]].
    now rewrite !length_map.
  - intros i s j p Hs Hp rows. simpl in Hp.
    apply nth_error_map_Some in Hp. destruct Hp as [g [Hg <-]].
    pose proof (nth_error_In _ _ Hg) as Hin.
    apply groupby_In in Hin. destruct Hin as [Hk Hrows].
    pose proof (group_nonempty Position view _ Hk) as Hrne.
    fold rows in Hrne, Hrows.
    split; [exact Hrne |].
    unfold t. rewrite (position_skills_cell _ _ _ _ _ _ Hs Hg).
    rewrite Hrows, mean_nonempty, length_map; [reflexivity |].
    intros E. apply map_eq_nil in E. contradiction.
Qed.

(** ** The cached loader *)

Lemma load_data_hit (file : FileState) (p : Process) (d : DataFrame) :
  cached p = Some d -> load_data file p = (Some d, p).
Proof. unfold load_data, cache_data. now intros ->. Qed.

Lemma calls_hit (files : list FileState) (p : Process) (d : DataFrame) :
  cached p = Some d ->
  calls load_data files p = (map (fun _ => Some d) files, p).
Proof.
  intros Hc. induction files as [| file rest IH]; simpl; [reflexivity |].
  now rewrite (load_data_hit file p d Hc), IH.
Qed.

(** C6.  In a process whose cache is still empty, a call of [load_data]
    that returns a data set has read the file once and returns what the
    file holds; every later call, whatever the file has become, returns
    the same data set and leaves the process as it is: the read count does
    not move. *)
Theorem load_data_idempotent (file : FileState) (p p1 : Process)
        (d : DataFrame) :
  cached p = None ->
  load_data file p = (Some d, p1) ->
  file = Some d
  /\ reads p1 = S (reads p)
  /\ forall later : list FileState,
       calls load_data later p1 = (map (fun _ => Some d) later, p1).
Proof.
  unfold load_data at 1, cache_data, read_csv. intros -> E.
  injection E as -> <-. simpl.
  split; [reflexivity | split; [reflexivity |]].
  intros later. now apply calls_hit.
Qed.

(** ** Pearson correlation *)


Section PearsonFacts.
Local Open Scope R_scope.

Lemma rsum_sq_nonneg (m : R) (l : list R) :
  0 <= rsum (map (fun v => (v - m) * (v - m)) l).
Proof.
  induction l as [| v l IH]; simpl; [lra |].
  pose proof (Rle_0_sqr (v - m)) as H. unfold Rsqr in H. lra.
Qed.

Lemma rsum_sq_zero (m : R) (l : list R) :
  rsum (map (fun v => (v - m) * (v - m)) l) = 0 ->
  forall v, In v l -> v = m.
Proof.
  induction l as [| a l IH]; simpl; [tauto |].
  intros E v Hv.
  pose proof (Rle_0_sqr (a - m)) as Ha. unfold Rsqr in Ha.
  pose proof (rsum_sq_nonneg m l) as Hl.
  destruct Hv as [<- | Hv].
  - assert (Hz : (a - m) * (a - m) = 0) by lra.
    apply Rmult_integral in Hz. lra.
  - apply IH; [lra | exact Hv].
Qed.

Lemma ssqdm_pos (x : list R) :
  (exists a b, In a x /\ In b x /\ a <> b) -> 0 < ssqdm x.
Proof.
  intros [a [b [Ha [Hb Hab]]]].
  destruct (Rle_lt_or_eq_dec _ _ (rsum_sq_nonneg (rmean x) x))
    as [Hlt | Heq]; [exact Hlt |].
  symmetry in Heq.
  pose proof (rsum_sq_zero _ _ Heq a Ha).
  pose proof (rsum_sq_zero _ _ Heq b Hb).
  congruence.
Qed.

Lemma rsum_all_equal (k : R) (l : list R) :
  (forall v, In v l -> v = k) -> rsum l = INR (List.length l) * k.
Proof.
  induction l as [| a l IH]; intros H.
  - simpl. lra.
  - change (rsum (a :: l)) with (a + rsum l).
    change (List.length (a :: l)) with (S (List.length l)).
    rewrite S_INR, IH by (intros v Hv; apply H; now right).
    rewrite (H a (or_introl eq_refl)). lra.
Qed.

Lemma ssqdm_constant (x : list R) :
  (forall a b, In a x -> In b x -> a = b) -> ssqdm x = 0.
Proof.
  intros H. destruct x as [| k t]; [reflexivity |].
  assert (Hk : forall v, In v (k :: t) -> v = k).
  { intros v Hv. apply H; [exact Hv | now left]. }
  assert (Hm : rmean (k :: t) = k).
  { unfold rmean. rewrite (rsum_all_equal k) by exact Hk.
    field. apply not_0_INR. simpl. discriminate. }
  unfold ssqdm. rewrite Hm.
  rewrite (rsum_all_equal 0); [lra |].
  intros v Hv. apply in_map_iff in Hv. destruct Hv as [w [<- Hw]].
  rewrite (Hk w Hw). lra.
Qed.

Lemma covxy_swap (a b : R) (x y : list R) :
  rsum (map (fun p => (fst p - a) * (snd p - b)) (combine x y))
  = rsum (map (fun p => (fst p - b) * (snd p - a)) (combine y x)).
Proof.
  revert y. induction x as [| u x IH]; intros [| v y]; simpl;
    try reflexivity.
  rewrite IH. lra.
Qed.

Lemma covxy_sym (x y : list R) : covxy x y = covxy y x.
Proof. unfold covxy. apply covxy_swap. Qed.

Lemma covxy_diag (x : list R) : covxy x x = ssqdm x.
Proof.
  unfold covxy, ssqdm. generalize (rmean x) as m.
  induction x as [| v x IH]; intros m; simpl; [reflexivity |].
  now rewrite IH.
Qed.

Lemma pearson_sym (x y : list R) :
  List.length x = List.length y -> pearson x y = pearson y x.
Proof.
  intros Hlen. unfold pearson.
  rewrite Hlen, (Rmult_comm (ssqdm x)), (covxy_sym x y).
  reflexivity.
Qed.

Lemma pearson_diag (x : list R) : 0 < ssqdm x -> pearson x x = Some 1.
Proof.
  intros Hpos. unfold pearson.
  destruct x as [| v t]; [unfold ssqdm in Hpos; simpl in Hpos; lra |].
  change (List.length (v :: t) <? 1)%nat with false. cbv iota zeta.
  rewrite sqrt_square by lra.
  destruct (Req_dec_T (ssqdm (v :: t)) 0) as [E | _]; [lra |].
  rewrite covxy_diag. f_equal. field. lra.
Qed.

Lemma pearson_degenerate (x y : list R) :
  ssqdm x = 0 \/ ssqdm y = 0 -> pearson x y = None.
Proof.
  intros H. unfold pearson.
  destruct (List.length x <? 1)%nat; [reflexivity |].
  assert (E : sqrt (ssqdm x * ssqdm y) = 0).
  { destruct H as [-> | ->];
      [rewrite Rmult_0_l | rewrite Rmult_0_r]; apply sqrt_0. }
  rewrite E. destruct (Req_dec_T 0 0); [reflexivity | congruence].
Qed.

Lemma ssqdm_short (x : list R) : (List.length x < 2)%nat -> ssqdm x = 0.
Proof.
  intros H. apply ssqdm_constant.
  destruct x as [| u [| v t]]; simpl in *; try lia.
  intros a b [<- | []] [<- | []]. reflexivity.
Qed.

Lemma series_length c df : List.length (series c df) = List.length df.
Proof. apply length_map. Qed.

Lemma series_constant c view :
  constant_on c view -> ssqdm (series c view) = 0.
Proof.
  intros H. apply ssqdm_constant. intros a b Ha Hb.
  apply in_map_iff in Ha. destruct Ha as [r [<- Hr]].
  apply in_map_iff in Hb. destruct Hb as [r' [<- Hr']].
  apply Qeq_eqR. now apply H.
Qed.

Lemma series_varies c view :
  (exists r r', In r view /\ In r' view
                /\ ~ (col_value c r == col_value c r')%Q) ->
  0 < ssqdm (series c view).
Proof.
  intros [r [r' [Hr [Hr' Hne]]]]. apply ssqdm_pos.
  exists (Q2R (col_value c r)), (Q2R (col_value c r')).
  split; [| split].
  - apply in_map_iff. now exists r.
  - apply in_map_iff. now exists r'.
  - intros E. apply Hne. now apply eqR_Qeq.
Qed.

Lemma corr_entry cols view i j :
  entry (corr cols view) i j =
  match nth_error cols i, nth_error cols j with
  | Some ci, Some cj => Some (pearson (series ci view) (series cj view))
  | _, _ => None
  end.
Proof.
  unfold entry, corr. rewrite nth_error_map.
  destruct (nth_error cols i) as [ci |]; simpl; [| reflexivity].
  rewrite nth_error_map.
  destruct (nth_error cols j) as [cj |]; reflexivity.
Qed.
End PearsonFacts.

(** A view whose column [Set] is constant: the two OH players of the
    sample.  Read literally, with [==] the comparison of float64 cells,
    the symmetry [M[i][j] == M[j][i]] fails on it: the entries of the
    column [Set] are NaN, and NaN is not equal to NaN. *)
Lemma corr_eq_fails_on_nan :
  (2 <= List.length [cAttack; cSet])%nat
  /\ ~ (forall i j a b,
          entry (corr [cAttack; cSet]
                      (filtered_df sample_df ["OH"%string] (18, 40))) i j
          = Some a ->
          entry (corr [cAttack; cSet]
                      (filtered_df sample_df ["OH"%string] (18, 40))) j i
          = Some b ->
          cell_eq a b).
Proof.
  set (view := filtered_df sample_df ["OH"%string] (18, 40)).
  set (M := corr [cAttack; cSet] view).
  split; [simpl; lia |]. intros Hsym.
  assert (Hz : ssqdm (series cSet view) = 0%R).
  { apply series_constant. intros r r' Hr Hr'.
    assert (H : forall x, In x view -> col_value cSet x = 0%Q).
    { intros x Hx. vm_compute in Hx.
      destruct Hx as [<- | [<- | []]]; reflexivity. }
    rewrite (H r Hr), (H r' Hr'). reflexivity. }
  assert (E : entry M 0 1 = Some None /\ entry M 1 0 = Some None).
  { unfold M. rewrite !corr_entry. simpl nth_error. cbv iota.
    split; f_equal; apply pearson_degenerate; [right | left]; exact Hz. }
  destruct E as [E01 E10].
  exact (Hsym 0%nat 1%nat None None E01 E10).
Qed.

(** C3, as amended.  With at least two columns selected, tab 5 draws the
    matrix [corr]; its entries [M[i][j]] and [M[j][i]] are the same cell:
    both NaN, or the same number, and [M[i][j] == M[j][i]] holds exactly
    for the entries that are numbers.  The diagonal entry of a selected
    column is NaN when the column is constant on the view, and, computed
    in exact arithmetic, 1 when the column takes two different values. *)
Theorem corr_symmetric_up_to_nan (view : DataFrame)
        (selected : list Column) :
  (2 <= List.length selected)%nat ->
  let M := corr selected view in
  tab5 view selected = Chart (M, triu_ones (List.length selected))
  /\ (forall i j, entry M i j = entry M j i)
  /\ (forall i j a b,
        entry M i j = Some a -> entry M j i = Some b ->
        a = b /\ (cell_eq a b <-> a <> None))
  /\ (forall i c,
        nth_error selected i = Some c ->
        (constant_on c view -> entry M i i = Some None)
        /\ ((exists r r', In r view /\ In r' view
                          /\ ~ (col_value c r == col_value c r')%Q) ->
            entry M i i = Some (Some 1%R))).
Proof.
  intros Hlen M.
  assert (Hsym : forall i j, entry M i j = entry M j i).
  { intros i j. unfold M. rewrite !corr_entry.
    destruct (nth_error selected i) as [ci |],
             (nth_error selected j) as [cj |]; try reflexivity.
    f_equal. apply pearson_sym. now rewrite !series_length. }
  split; [| split; [exact Hsym | split]].
  - unfold tab5. apply Nat.leb_le in Hlen. rewrite Hlen.
    unfold M, corr at 2. now rewrite length_map.
  - intros i j a b Ha Hb. rewrite (Hsym i j), Hb in Ha.
    injection Ha as <-. split; [reflexivity |].
    destruct b as [x |]; simpl; split; congruence || tauto.
  - intros i c Hc. unfold M. rewrite corr_entry, Hc. split.
    + intros Hconst. f_equal. apply pearson_degenerate. left.
      now apply series_constant.
    + intros Hvar. f_equal. apply pearson_diag.
      now apply series_varies.
Qed.

(** C10.  Tab 5 decides between the heat map and the warning on the
    number of selected columns alone.  Whatever the view, [corr] yields a
    full square matrix; on a view with fewer than two rows every entry is
    NaN, and every entry in the row and in the column of a column that is
    constant on the view is NaN. *)
Theorem corr_total_with_nan (view : DataFrame) (selected : list Column) :
  let M := corr selected view in
  ((2 <= List.length selected)%nat ->
   tab5 view selected = Chart (M, triu_ones (List.length selected)))
  /\ ((List.length selected < 2)%nat ->
      exists msg, tab5 view selected = Warning msg)
  /\ List.length M = List.length selected
  /\ Forall (fun row => List.length row = List.length selected) M
  /\ ((List.length view < 2)%nat ->
      forall i j ci cj,
        nth_error selected i = Some ci -> nth_error selected j = Some cj ->
        entry M i j = Some None)
  /\ (forall i ci,
        nth_error selected i = Some ci -> constant_on ci view ->
        forall j cj,
          nth_error selected j = Some cj ->
          entry M i j = Some None /\ entry M j i = Some None).
Proof.
  intros M.
  split; [| split; [| split; [| split; [| split]]]].
  - intros Hlen. unfold tab5. apply Nat.leb_le in Hlen. rewrite Hlen.
    unfold M, corr at 2. now rewrite length_map.
  - intros Hlen. unfold tab5. apply Nat.leb_gt in Hlen. rewrite Hlen.
    eexists. reflexivity.
  - unfold M, corr. apply length_map.
  - unfold M, corr. apply Forall_forall. intros row Hrow.
    apply in_map_iff in Hrow. destruct Hrow as [ci [<- _]].
    apply length_map.
  - intros Hshort i j ci cj Hi Hj. unfold M.
    rewrite corr_entry, Hi, Hj. f_equal.
    apply pearson_degenerate. left.
    apply ssqdm_short. now rewrite series_length.
  - intros i ci Hi Hconst j cj Hj. unfold M.
    rewrite !corr_entry, Hi, Hj.
    pose proof (series_constant ci view Hconst) as Hz.
    split; f_equal; apply pearson_degenerate; [left | right]; exact Hz.
Qed.

(** ** Worked examples *)

(** The example of the specification: positions OH and ages 18 to 26 on
    the five rows keep both OH players, aged 20 and 25. *)
Example example_filter_OH :
  filtered_df example_df ["OH"%string] (18, 26)
  = [example_row "OH" 20; example_row "OH" 25].
Proof. reflexivity. Qed.

(** Ten top attackers asked of eight rows: all eight, by descending
    attack, P2 before P4 on their tie. *)
Example example_top_10_of_8 :
  map top_Player (top_attack sample_df 10)
  = ["P1"; "P3"; "P2"; "P4"; "P8"; "P7"; "P5"; "P6"]%string.
Proof. vm_compute. reflexivity. Qed.

Example example_top_3 :
  map top_Player (top_attack sample_df 3) = ["P1"; "P3"; "P2"]%string.
Proof. vm_compute. reflexivity. Qed.

Example example_country_stats :
  Permutation
    (map (fun s => (st_Country s, st_Player s)) (country_stats sample_df 3))
    [("ITA", 3); ("JPN", 3)]%nat%string
  /\ country_stats sample_df 4 = [].
Proof.
  split; [| vm_compute; reflexivity].
  vm_compute. apply Permutation_refl.
Qed.

Example example_position_skills :
  columns (position_skills sample_df [cAttack])
  = ["L"; "MB"; "OH"; "OP"; "S"]%string.
Proof. vm_compute. reflexivity. Qed.

(** Attack varies over the eight rows: its diagonal entry is 1. *)
Example example_corr_diagonal :
  entry (corr [cAttack; cBlock] sample_df) 0 0 = Some (Some 1%R).
Proof.
  rewrite corr_entry. simpl nth_error. cbv iota. f_equal.
  apply pearson_diag, series_varies.
  exists (nth 0 sample_df (example_row "" 0)),
         (nth 1 sample_df (example_row "" 0)).
  split; [simpl; auto | split; [simpl; auto |]].
  simpl. unfold Qeq. simpl. lia.
Qed.

(** On the two OH players alone the column Set is constant: NaN. *)
Example example_corr_constant :
  let view := filtered_df sample_df ["OH"%string] (18, 40) in
  List.length view = 2%nat
  /\ entry (corr [cAttack; cSet] view) 0 1 = Some None
  /\ entry (corr [cAttack; cSet] view) 1 1 = Some None.
Proof.
  intros view. split; [reflexivity |].
  assert (Hz : Pandas.ssqdm (series cSet view) = 0%R).
  { apply series_constant. intros r r' Hr Hr'.
    assert (H : forall x, In x view -> col_value cSet x = 0%Q).
    { intros x Hx. vm_compute in Hx.
      destruct Hx as [<- | [<- | []]]; reflexivity. }
    rewrite (H r Hr), (H r' Hr'). reflexivity. }
  split; rewrite corr_entry; simpl nth_error; cbv iota; f_equal;
    apply pearson_degenerate; right; exact Hz.
Qed.

(** ** Instances of the conditional statements *)

Lemma default_filter_is_identity_witness :
  age_range example_df = Some (20, 30)
  /\ (default_age_range example_df = Some (20, 30)
      /\ filtered_df example_df (default_selected_positions example_df)
                     (20, 30) = example_df).
Proof.
  split; [reflexivity |].
  apply (default_filter_is_identity example_df (20, 30)). reflexivity.
Defined.

Lemma position_skills_shape_witness :
  [cAttack; cBlock] <> []
  /\ let t := position_skills sample_df [cAttack; cBlock] in
     tab2 sample_df [cAttack; cBlock] = Chart t
     /\ index t = [cAttack; cBlock]
     /\ NoDup (columns t)
     /\ (forall p, In p (columns t) <->
                   exists r, In r sample_df /\ Position r = p)
     /\ List.length (values t) = List.length [cAttack; cBlock]
     /\ Forall (fun row => List.length row = List.length (columns t))
               (values t)
     /\ (forall i s j p,
           nth_error [cAttack; cBlock] i = Some s ->
           nth_error (columns t) j = Some p ->
           let rows :=
             filter (fun r => String.eqb (Position r) p) sample_df in
           rows <> []
           /\ nth_error (nth i (values t) []) j
              = Some (Some (qsum (map (col_value s) rows)
                            / inject_Z (Z.of_nat (List.length rows)))%Q)).
Proof.
  split; [discriminate |].
  apply (position_skills_shape sample_df [cAttack; cBlock]).
  discriminate.
Defined.

Lemma load_data_idempotent_witness :
  cached (mkProcess None 0) = None
  /\ load_data (Some sample_df) (mkProcess None 0)
     = (Some sample_df, mkProcess (Some sample_df) 1)
  /\ (Some sample_df = Some sample_df
      /\ reads (mkProcess (Some sample_df) 1) = S (reads (mkProcess None 0))
      /\ forall later : list FileState,
           calls load_data later (mkProcess (Some sample_df) 1)
           = (map (fun _ => Some sample_df) later,
              mkProcess (Some sample_df) 1)).
Proof.
  split; [reflexivity |]. split; [reflexivity |].
  apply (load_data_idempotent (Some sample_df) (mkProcess None 0)
           (mkProcess (Some sample_df) 1) sample_df); reflexivity.
Defined.

Lemma corr_symmetric_up_to_nan_witness :
  (2 <= List.length [cAttack; cBlock])%nat
  /\ let M := corr [cAttack; cBlock] sample_df in
     tab5 sample_df [cAttack; cBlock]
     = Chart (M, triu_ones (List.length [cAttack; cBlock]))
     /\ (forall i j, entry M i j = entry M j i)
     /\ (forall i j a b,
           entry M i j = Some a -> entry M j i = Some b ->
           a = b /\ (cell_eq a b <-> a <> None))
     /\ (forall i c,
           nth_error [cAttack; cBlock] i = Some c ->
           (constant_on c sample_df -> entry M i i = Some None)
           /\ ((exists r r', In r sample_df /\ In r' sample_df
                             /\ ~ (col_value c r == col_value c r')%Q) ->
               entry M i i = Some (Some 1%R))).
Proof.
  split; [simpl; lia |].
  apply (corr_symmetric_up_to_nan sample_df [cAttack; cBlock]).
  simpl. lia.
Defined.

(** * Further properties of the pipeline *)

(** ** The sidebar filter *)

Lemma filter_filter_and {A : Type} (f g : A -> bool) (l : list A) :
  filter g (filter f l) = filter (fun x => f x && g x) l.
Proof.
  induction l as [| x l IH]; simpl; [reflexivity |].
  destruct (f x); simpl; [destruct (g x) |]; now rewrite IH.
Qed.

Lemma existsb_inter (pos : string) (ps1 ps2 : list string) :
  existsb (String.eqb pos)
          (filter (fun p => existsb (String.eqb p) ps2) ps1)
  = existsb (String.eqb pos) ps1 && existsb (String.eqb pos) ps2.
Proof.
  induction ps1 as [| p ps1 IH]; simpl; [reflexivity |].
  destruct (String.eqb_spec pos p) as [Heq | Hne]; simpl.
  - subst p. destruct (existsb (String.eqb pos) ps2) eqn:E; simpl.
    + now rewrite String.eqb_refl.
    + rewrite IH. apply andb_false_r.
  - destruct (existsb (String.eqb p) ps2); simpl; [| exact IH].
    apply String.eqb_neq in Hne. now rewrite Hne.
Qed.

(** X1.  Filtering a filtered view is filtering once with the positions
    selected both times and the intersection of the two age ranges; in
    particular filtering twice with the same selection changes nothing. *)
Theorem filtered_df_compose (df : DataFrame) (ps1 ps2 : list string)
        (lo1 hi1 lo2 hi2 : Z) :
  filtered_df (filtered_df df ps1 (lo1, hi1)) ps2 (lo2, hi2)
  = filtered_df df (filter (fun p => existsb (String.eqb p) ps2) ps1)
                (Z.max lo1 lo2, Z.min hi1 hi2)
  /\ filtered_df (filtered_df df ps1 (lo1, hi1)) ps1 (lo1, hi1)
     = filtered_df df ps1 (lo1, hi1).
Proof.
  rewrite !filtered_df_filter, !filter_filter_and. split.
  - apply filter_ext. intros r. unfold keeps. simpl.
    rewrite existsb_inter.
    destruct (existsb (String.eqb (Position r)) ps1),
             (existsb (String.eqb (Position r)) ps2); simpl;
      try reflexivity; try apply andb_false_r.
    apply eq_true_iff_eq.
    rewrite !andb_true_iff, !Z.leb_le. lia.
  - apply filter_ext. intros r. now destruct (keeps ps1 (lo1, hi1) r).
Qed.

Lemma Subseq_filter_impl {A : Type} (f g : A -> bool) (l : list A) :
  (forall x, f x = true -> g x = true) ->
  Subseq (filter f l) (filter g l).
Proof.
  intros Hfg. induction l as [| x l IH]; simpl; [constructor |].
  destruct (f x) eqn:Ef.
  - rewrite (Hfg x Ef). now constructor.
  - destruct (g x); [now constructor | exact IH].
Qed.

(** X2.  Selecting more positions or a wider age range never removes a
    row: the narrower view is a sublist of the wider one. *)
Theorem filtered_df_monotone (df : DataFrame) (ps ps' : list string)
        (lo hi lo' hi' : Z) :
  incl ps ps' -> lo' <= lo -> hi <= hi' ->
  Subseq (filtered_df df ps (lo, hi)) (filtered_df df ps' (lo', hi')).
Proof.
  intros Hps Hlo Hhi. rewrite !filtered_df_filter.
  apply Subseq_filter_impl. intros r Hr.
  apply keeps_iff in Hr. apply keeps_iff.
  destruct Hr as [Hp Hage]. split; [now apply Hps | lia].
Qed.

(** X3.  An inverted age range (upper bound below the lower bound)
    matches no row: the view is empty, whatever is selected. *)
Theorem filtered_df_inverted_range (df : DataFrame) (ps : list string)
        (lo hi : Z) :
  hi < lo -> filtered_df df ps (lo, hi) = [].
Proof.
  intros Hinv. rewrite filtered_df_filter.
  apply filter_all_false. intros r _.
  destruct (keeps ps (lo, hi) r) eqn:E; [| reflexivity].
  apply keeps_iff in E. lia.
Qed.

Lemma fold_min_In (l : list Z) (a : Z) : In (fold_left Z.min l a) (a :: l).
Proof.
  revert a. induction l as [| y l IH]; intros a; simpl; [now left |].
  destruct (IH (Z.min a y)) as [H | H]; [| now right; right].
  rewrite <- H. destruct (Z.min_spec a y) as [[_ ->] | [_ ->]]; auto.
Qed.

Lemma fold_max_In (l : list Z) (a : Z) : In (fold_left Z.max l a) (a :: l).
Proof.
  revert a. induction l as [| y l IH]; intros a; simpl; [now left |].
  destruct (IH (Z.max a y)) as [H | H]; [| now right; right].
  rewrite <- H. destruct (Z.max_spec a y) as [[_ ->] | [_ ->]]; auto.
Qed.

Lemma filter_id_all {A : Type} (f : A -> bool) (l : list A) :
  filter f l = l -> forall x, In x l -> f x = true.
Proof.
  intros E x Hx. rewrite <- E in Hx. apply filter_In in Hx. tauto.
Qed.

(** X4.  The default age range of the slider is tight: its bounds are
    the ages of two players of the data set, the lower one not above the
    upper one, and every age range that keeps the whole data set contains
    it. *)
Theorem default_age_range_tight (df : DataFrame) (lo hi : Z) :
  default_age_range df = Some (lo, hi) ->
  lo <= hi
  /\ (exists r, In r df /\ Age r = lo)
  /\ (exists r, In r df /\ Age r = hi)
  /\ forall lo' hi',
       filtered_df df (default_selected_positions df) (lo', hi') = df ->
       lo' <= lo /\ hi <= hi'.
Proof.
  intros E.
  assert (Hlo : exists r, In r df /\ Age r = lo).
  { unfold default_age_range in E. destruct df as [| r0 df]; simpl in E;
      [discriminate |].
    injection E as <- _.
    pose proof (fold_min_In (map Age df) (Age r0)) as H.
    change (Age r0 :: map Age df) with (map Age (r0 :: df)) in H.
    apply in_map_iff in H. destruct H as [r [Hr Hin]]. now exists r. }
  assert (Hhi : exists r, In r df /\ Age r = hi).
  { unfold default_age_range in E. destruct df as [| r0 df]; simpl in E;
      [discriminate |].
    injection E as _ <-.
    pose proof (fold_max_In (map Age df) (Age r0)) as H.
    change (Age r0 :: map Age df) with (map Age (r0 :: df)) in H.
    apply in_map_iff in H. destruct H as [r [Hr Hin]]. now exists r. }
  destruct Hlo as [rl [Hrl Hal]]. destruct Hhi as [rh [Hrh Hah]].
  pose proof (default_age_range_bounds df lo hi E) as Hb.
  split; [| split; [now exists rl | split; [now exists rh |]]].
  - specialize (Hb rl Hrl). lia.
  - intros lo' hi' Hall. rewrite filtered_df_filter in Hall.
    pose proof (filter_id_all _ _ Hall rl Hrl) as H1.
    pose proof (filter_id_all _ _ Hall rh Hrh) as H2.
    apply keeps_iff in H1. apply keeps_iff in H2. lia.
Qed.

Lemma filter_length_lt {A : Type} (f : A -> bool) (l : list A) x :
  In x l -> f x = false -> (List.length (filter f l) < List.length l)%nat.
Proof.
  induction l as [| y l IH]; simpl; [tauto |].
  intros [-> | Hx] Hf.
  - rewrite Hf. pose proof (filter_length_le f l). lia.
  - specialize (IH Hx Hf). destruct (f y); simpl; lia.
Qed.

Lemma Subseq_trans {A : Type} (a b c : list A) :
  Subseq a b -> Subseq b c -> Subseq a c.
Proof.
  intros Hab Hbc. revert a Hab.
  induction Hbc as [| x s l Hsl IH | x s l Hsl IH]; intros a Hab.
  - exact Hab.
  - inversion Hab; subst; constructor; now apply IH.
  - constructor. now apply IH.
Qed.

Lemma unique_Subseq (s : list string) : Subseq (unique String.eqb s) s.
Proof.
  induction s as [| x s IH]; simpl; constructor.
  apply Subseq_trans with (unique String.eqb s); [| exact IH].
  apply Subseq_filter.
Qed.

Lemma StronglySorted_impl_in {A : Type} (R S : A -> A -> Prop)
      (l : list A) :
  (forall a b, In a l -> In b l -> R a b -> S a b) ->
  StronglySorted R l -> StronglySorted S l.
Proof.
  intros HRS Hs. induction Hs as [| x l Hl IH Hx]; constructor.
  - apply IH. intros a b Ha Hb. apply HRS; now right.
  - rewrite Forall_forall in *. intros y Hy.
    apply HRS; [now left | now right | now apply Hx].
Qed.

(** [unique] lists the values by the row of their first occurrence. *)
Lemma unique_first_index_sorted (s : list string) :
  StronglySorted (fun p q => (first_index p s < first_index q s)%nat)
                 (unique String.eqb s).
Proof.
  induction s as [| x t IH]; simpl; constructor.
  - apply StronglySorted_impl_in
      with (R := fun p q => (first_index p t < first_index q t)%nat).
    + intros a b Ha Hb Hab.
      apply filter_In in Ha. apply filter_In in Hb.
      destruct Ha as [_ Ha]. destruct Hb as [_ Hb].
      apply negb_true_iff in Ha, Hb. rewrite Ha, Hb. lia.
    + now apply StronglySorted_filter.
  - apply Forall_forall. intros q Hq.
    apply filter_In in Hq. destruct Hq as [_ Hq].
    apply negb_true_iff in Hq. rewrite String.eqb_refl, Hq. lia.
Qed.

(** X5.  The default selection of the multiselect lists every position of
    the data set, and nothing else, once each, in the order of first
    appearance: of two listed positions the one listed first is the one
    whose first row comes first in the data set.  None of them is idle:
    without any one of them the view has fewer rows than the data set,
    whatever the age range. *)
Theorem default_selected_positions_minimal (df : DataFrame) :
  NoDup (default_selected_positions df)
  /\ (forall p, In p (default_selected_positions df) <->
                In p (map Position df))
  /\ StronglySorted
       (fun p q => (first_index p (map Position df)
                    < first_index q (map Position df))%nat)
       (default_selected_positions df)
  /\ Subseq (default_selected_positions df) (map Position df)
  /\ forall p age_range,
       In p (default_selected_positions df) ->
       (List.length
          (filtered_df df (remove string_dec p
                                  (default_selected_positions df))
                       age_range)
        < List.length df)%nat.
Proof.
  unfold default_selected_positions.
  split; [apply unique_NoDup, String.eqb_eq |].
  split; [intros p; apply unique_In, String.eqb_eq |].
  split; [apply unique_first_index_sorted |].
  split; [apply unique_Subseq |].
  intros p [lo hi] Hp.
  apply (proj1 (unique_In String.eqb String.eqb_eq _ p)) in Hp.
  apply in_map_iff in Hp. destruct Hp as [r [<- Hr]].
  rewrite filtered_df_filter.
  apply filter_length_lt with (x := r); [exact Hr |].
  destruct (keeps _ (lo, hi) r) eqn:E; [| reflexivity].
  apply keeps_iff in E. destruct E as [Hin _].
  apply in_remove in Hin. tauto.
Qed.

(** ** Counts add up *)

Lemma list_sum_perm (l l' : list nat) :
  Permutation l l' -> list_sum l = list_sum l'.
Proof. induction 1; simpl; lia. Qed.

Lemma list_sum_map_add {K : Type} (f g : K -> nat) (keys : list K) :
  list_sum (map (fun k => (f k + g k)%nat) keys)
  = (list_sum (map f keys) + list_sum (map g keys))%nat.
Proof. induction keys as [| k keys IH]; simpl; lia. Qed.

Lemma list_sum_filter_le {K : Type} (f : K -> nat) (p : K -> bool)
      (keys : list K) :
  (list_sum (map f (filter p keys)) <= list_sum (map f keys))%nat.
Proof.
  induction keys as [| k keys IH]; simpl; [lia |].
  destruct (p k); simpl; lia.
Qed.

Lemma hits_NoDup (x : string) (keys : list string) :
  NoDup keys ->
  list_sum (map (fun k => if String.eqb x k then 1 else 0)%nat keys)
  = (if existsb (String.eqb x) keys then 1 else 0)%nat.
Proof.
  induction 1 as [| k keys Hk Hnd IH]; simpl; [reflexivity |].
  rewrite IH. destruct (String.eqb_spec x k) as [-> | _]; simpl;
    [| reflexivity].
  destruct (existsb (String.eqb k) keys) eqn:E; [| reflexivity].
  apply existsb_exists in E. destruct E as [y [Hy Ey]].
  apply String.eqb_eq in Ey. subst y. contradiction.
Qed.

(** The sizes of the groups of distinct keys add up to the number of
    rows that have one of the keys. *)
Lemma group_sizes_total {A : Type} (key : A -> string)
      (keys : list string) (l : list A) :
  NoDup keys ->
  list_sum (map (fun k =>
                   List.length (filter (fun r => String.eqb (key r) k) l))
                keys)
  = List.length (filter (fun r => existsb (String.eqb (key r)) keys) l).
Proof.
  intros Hnd. induction l as [| x l IH].
  - simpl. clear Hnd.
    induction keys as [| k keys IHk]; simpl; [reflexivity | exact IHk].
  - rewrite (map_ext _ (fun k =>
       ((if String.eqb (key x) k then 1 else 0)
        + List.length (filter (fun r => String.eqb (key r) k) l))%nat)).
    + rewrite list_sum_map_add, IH, (hits_NoDup _ _ Hnd). simpl.
      destruct (existsb (String.eqb (key x)) keys); reflexivity.
    + intros k. simpl. destruct (String.eqb (key x) k); reflexivity.
Qed.

Lemma group_sizes_all {A : Type} (key : A -> string) (keys : list string)
      (l : list A) :
  NoDup keys -> (forall r, In r l -> In (key r) keys) ->
  list_sum (map (fun k =>
                   List.length (filter (fun r => String.eqb (key r) k) l))
                keys)
  = List.length l.
Proof.
  intros Hnd Hall. rewrite (group_sizes_total key keys l Hnd).
  f_equal. apply filter_all_true. intros r Hr.
  apply existsb_exists. exists (key r).
  split; [now apply Hall | apply String.eqb_refl].
Qed.

(** X6.  The counts of tab 1 add up to the number of rows of the view,
    and every position listed has at least one row. *)
Theorem position_counts_total (view : DataFrame) :
  list_sum (map snd (position_counts view)) = List.length view
  /\ Forall (fun e => (1 <= snd e)%nat) (position_counts view).
Proof.
  unfold position_counts, value_counts.
  set (s := map Position view).
  set (pairs := map (fun v => (v, count_of v s)) (unique String.eqb s)).
  split.
  - rewrite (list_sum_perm _ (map snd pairs))
      by (apply Permutation_sym, Permutation_map, sort_by_perm).
    unfold pairs. rewrite map_map. simpl.
    rewrite (map_ext _ (fun k =>
       List.length (filter (fun r : string => String.eqb r k) s))).
    + replace (List.length view) with (List.length s)
        by apply length_map.
      apply (group_sizes_all (fun x : string => x)).
      * apply unique_NoDup, String.eqb_eq.
      * intros r Hr.
        now apply (proj2 (unique_In String.eqb String.eqb_eq s r)).
    + intros k. unfold count_of. f_equal.
      apply filter_ext. intros r. apply String.eqb_sym.
  - apply Forall_forall. intros e He.
    apply (proj1 (sort_by_In _ _ _)) in He.
    apply in_map_iff in He. destruct He as [v [<- Hv]]. simpl.
    apply count_of_pos.
    now apply (proj1 (unique_In String.eqb String.eqb_eq s v)).
Qed.

(** X7.  Tab 1 and tab 2 show the same positions: the positions counted
    are, up to order, the columns of the table of means; and on a view
    made by the sidebar filter each of them is a selected position. *)
Theorem position_counts_same_positions (df : DataFrame)
        (selected_positions : list string) (age_range : Z * Z)
        (selected_skills : list Column) :
  let view := filtered_df df selected_positions age_range in
  Permutation (map fst (position_counts view))
              (columns (position_skills view selected_skills))
  /\ forall p, In p (map fst (position_counts view)) ->
               In p selected_positions.
Proof.
  intros view.
  assert (Hperm : Permutation (map fst (position_counts view))
                              (unique String.eqb (map Position view))).
  { unfold position_counts, value_counts.
    apply Permutation_sym.
    eapply Permutation_trans;
      [| apply Permutation_map, sort_by_perm].
    rewrite map_map. simpl. rewrite map_id. apply Permutation_refl. }
  split.
  - apply (Permutation_trans Hperm). simpl. apply groupby_keys.
  - intros p Hp. apply (Permutation_in _ Hperm) in Hp.
    apply (proj1 (unique_In String.eqb String.eqb_eq _ p)) in Hp.
    apply in_map_iff in Hp. destruct Hp as [r [<- Hr]].
    unfold view in Hr. rewrite filtered_df_filter in Hr.
    apply filter_In in Hr. destruct Hr as [_ Hk].
    destruct age_range as [lo hi]. apply keeps_iff in Hk. tauto.
Qed.

(** ** Country statistics *)

Lemma firstn_app_exact {A : Type} (a b : list A) :
  firstn (List.length a) (a ++ b) = a.
Proof. induction a as [| x a IH]; simpl; [now destruct b | now rewrite IH]. Qed.

Lemma filter_threshold_prefix {A : Type} (key : A -> nat) (m : Z)
      (l : list A) :
  StronglySorted (fun a b => (key b <= key a)%nat) l ->
  Prefix (filter (fun s => m <=? Z.of_nat (key s)) l) l.
Proof.
  induction 1 as [| x l Hl IH Hx]; simpl.
  - now exists 0%nat.
  - destruct (Z.leb_spec m (Z.of_nat (key x))) as [Hm | Hm].
    + destruct IH as [k Hk]. exists (S k). simpl. now rewrite <- Hk.
    + exists 0%nat. simpl. apply filter_all_false. intros y Hy.
      rewrite Forall_forall in Hx. specialize (Hx y Hy).
      apply Z.leb_gt. lia.
Qed.

(** X8.  Raising the threshold of tab 6 only cuts the table at its end:
    the rows for a higher [min_players] are the first rows of the table
    for a lower one. *)
Theorem country_stats_prefix (view : DataFrame) (m1 m2 : Z) :
  m1 <= m2 ->
  Prefix (country_stats view m2) (country_stats view m1).
Proof.
  intros Hm.
  assert (E : country_stats view m2
              = filter (fun s => m2 <=? Z.of_nat (st_Player s))
                       (country_stats view m1)).
  { unfold country_stats. rewrite filter_filter_and.
    apply filter_ext. intros s.
    destruct (Z.leb_spec m2 (Z.of_nat (st_Player s))) as [H2 | H2];
      [| now rewrite andb_false_r].
    rewrite andb_true_r. symmetry. apply Z.leb_le. lia. }
  rewrite E. apply filter_threshold_prefix.
  unfold country_stats, sort_values_Player_desc.
  apply StronglySorted_filter, sort_by_desc_nat.
Qed.

(** X9.  The player counts of tab 6 never add up to more than the rows of
    the view, and with a threshold of 1 (or less) they add up to exactly
    that number: every row is counted for one country. *)
Theorem country_stats_total (view : DataFrame) (min_players : Z) :
  (list_sum (map st_Player (country_stats view min_players))
   <= List.length view)%nat
  /\ (min_players <= 1 ->
      list_sum (map st_Player (country_stats view min_players))
      = List.length view).
Proof.
  set (all := sort_values_Player_desc
                (map agg_country (groupby Country view))).
  assert (Hall : list_sum (map st_Player all) = List.length view).
  { unfold all, sort_values_Player_desc.
    rewrite (list_sum_perm _ (map st_Player
                                (map agg_country (groupby Country view))))
      by (apply Permutation_sym, Permutation_map, sort_by_perm).
    unfold groupby. rewrite !map_map. simpl.
    rewrite (map_ext _ (fun k =>
       List.length (filter (fun r => String.eqb (Country r) k) view)))
      by (intros k; apply length_map).
    apply group_sizes_all.
    - apply (Permutation_NoDup (sort_by_perm _ _)).
      apply unique_NoDup, String.eqb_eq.
    - intros r Hr. apply (proj2 (sort_by_In _ _ _)).
      apply (proj2 (unique_In String.eqb String.eqb_eq _ _)).
      now apply in_map. }
  split.
  - rewrite <- Hall. apply list_sum_filter_le.
  - intros Hm. rewrite <- Hall. unfold country_stats. fold all.
    f_equal. f_equal. apply filter_all_true. intros s Hs.
    apply Z.leb_le.
    assert (Hin : In s (country_stats view 1)).
    { unfold country_stats. fold all. apply filter_In.
      split; [exact Hs |]. apply Z.leb_le.
      unfold all, sort_values_Player_desc in Hs.
      apply (proj1 (sort_by_In _ _ _)) in Hs.
      apply in_map_iff in Hs. destruct Hs as [g [<- Hg]].
      apply groupby_In in Hg. destruct Hg as [Hk Hrows].
      pose proof (group_nonempty Country view _ Hk) as Hne.
      simpl. rewrite length_map, Hrows.
      destruct (filter _ view); [congruence | simpl; lia]. }
    apply country_stats_In in Hin. lia.
Qed.

(** X10.  Tab 6 shows its charts exactly when some country of the view
    has at least [min_players] players, and then on the full table;
    otherwise - in particular on a view without rows, for every
    threshold - it shows the warning. *)
Theorem tab6_chart_iff (view : DataFrame) (min_players : Z) :
  (tab6 view min_players = Chart (country_stats view min_players) <->
   exists c, In c (map Country view)
             /\ min_players <= Z.of_nat (List.length (rows_of c view)))
  /\ ((exists msg, tab6 view min_players = Warning msg) <->
      forall c, In c (map Country view) ->
                Z.of_nat (List.length (rows_of c view)) < min_players)
  /\ exists msg, tab6 [] min_players = Warning msg.
Proof.
  assert (Hrow : forall s, In s (country_stats view min_players) ->
            In (st_Country s) (map Country view)
            /\ min_players
               <= Z.of_nat (List.length (rows_of (st_Country s) view))).
  { intros s Hs. apply country_stats_In in Hs.
    destruct Hs as [Hc [E Hmin]]. split; [exact Hc |].
    rewrite E in Hmin. simpl in Hmin. now rewrite length_map in Hmin. }
  assert (Hmeet : forall c, In c (map Country view) ->
            min_players <= Z.of_nat (List.length (rows_of c view)) ->
            In (agg_country (c, rows_of c view))
               (country_stats view min_players)).
  { intros c Hc Hmin. apply country_stats_In. simpl.
    rewrite length_map. auto. }
  unfold tab6. split; [| split].
  - destruct (country_stats view min_players) as [| s t] eqn:E.
    + split; [discriminate |].
      intros [c [Hc Hmin]]. destruct (Hmeet c Hc Hmin).
    + split; [| reflexivity]. intros _.
      destruct (Hrow s (or_introl eq_refl)) as [Hc Hmin].
      now exists (st_Country s).
  - destruct (country_stats view min_players) as [| s t] eqn:E.
    + split; [| intros _; eexists; reflexivity].
      intros _ c Hc.
      destruct (Z.lt_ge_cases (Z.of_nat (List.length (rows_of c view)))
                              min_players) as [Hlt | Hge];
        [exact Hlt |].
      destruct (Hmeet c Hc Hge).
    + split; [intros [msg Hmsg]; discriminate |].
      intros Hsmall.
      destruct (Hrow s (or_introl eq_refl)) as [Hc Hmin].
      specialize (Hsmall _ Hc). lia.
  - eexists. reflexivity.
Qed.

(** ** Means stay within the data *)

Section MeanBounds.
Local Open Scope Q_scope.

Lemma inject_succ (n : nat) :
  inject_Z (Z.of_nat (S n)) == inject_Z (Z.of_nat n) + 1.
Proof.
  rewrite Nat2Z.inj_succ. unfold Z.succ. rewrite inject_Z_plus.
  reflexivity.
Qed.

Lemma qsum_bounds (a b : Q) (s : list Q) :
  (forall x, In x s -> a <= x <= b) ->
  a * inject_Z (Z.of_nat (List.length s)) <= qsum s
  /\ qsum s <= b * inject_Z (Z.of_nat (List.length s)).
Proof.
  induction s as [| x s IH]; intros H.
  - change (inject_Z (Z.of_nat (List.length (@nil Q)))) with 0.
    change (qsum []) with 0. split; Lqa.lra.
  - destruct (H x (or_introl eq_refl)) as [Hax Hxb].
    destruct IH as [IH1 IH2]; [intros y Hy; apply H; now right |].
    change (List.length (x :: s)) with (S (List.length s)).
    change (qsum (x :: s)) with (x + qsum s).
    rewrite inject_succ.
    set (n := inject_Z (Z.of_nat (List.length s))) in *.
    split; Lqa.nra.
Qed.

Lemma mean_between (a b : Q) (s : list Q) :
  s <> [] -> (forall x, In x s -> a <= x <= b) ->
  exists m, mean s = Some m /\ a <= m <= b.
Proof.
  intros Hne H. rewrite (mean_nonempty s Hne). eexists.
  split; [reflexivity |].
  destruct (qsum_bounds a b s H) as [H1 H2].
  assert (Hpos : 0 < inject_Z (Z.of_nat (List.length s))).
  { destruct s as [| x s]; [congruence |].
    change 0 with (inject_Z 0). rewrite <- Zlt_Qlt. simpl. lia. }
  split.
  - now apply Qle_shift_div_l.
  - now apply Qle_shift_div_r.
Qed.

End MeanBounds.

(** X11.  On a view made by the sidebar filter, the mean age of every
    country of tab 6 lies within the selected age range. *)
Theorem country_stats_age_in_range (df : DataFrame)
        (selected_positions : list string) (age_min age_max : Z)
        (min_players : Z) :
  let view := filtered_df df selected_positions (age_min, age_max) in
  Forall (fun s => exists a,
            st_Age s = Some a
            /\ (inject_Z age_min <= a)%Q /\ (a <= inject_Z age_max)%Q)
         (country_stats view min_players).
Proof.
  intros view. apply Forall_forall. intros s Hs.
  apply country_stats_In in Hs. destruct Hs as [Hc [E _]].
  pose proof (group_nonempty Country view _ Hc) as Hne.
  fold (rows_of (st_Country s) view) in Hne.
  destruct (mean_between (inject_Z age_min) (inject_Z age_max)
              (map (fun r => inject_Z (Age r))
                   (rows_of (st_Country s) view))) as [a [Ha Hb]].
  - intros E0. apply map_eq_nil in E0. contradiction.
  - intros x Hx. apply in_map_iff in Hx. destruct Hx as [r [<- Hr]].
    unfold rows_of in Hr. apply filter_In in Hr. destruct Hr as [Hr _].
    unfold view in Hr. rewrite filtered_df_filter in Hr.
    apply filter_In in Hr. destruct Hr as [_ Hk].
    apply keeps_iff in Hk. rewrite <- !Zle_Qle. lia.
  - exists a. split; [| tauto]. rewrite E. exact Ha.
Qed.

(** ** Top attackers *)


Lemma In_firstn_In {A : Type} (n : nat) (l : list A) (x : A) :
  In x (firstn n l) -> In x l.
Proof.
  intros H. rewrite <- (firstn_skipn n l). apply in_or_app. now left.
Qed.

(** X14.  The table of tab 4 on a view made by the sidebar filter shows
    only players of the data set whose position is selected and whose age
    is in the range, never more than [top_n] of them; and for [top_n] of
    at least 1 - the slider starts at 5 - it is empty only when the view
    is. *)
Theorem top_attack_of_filtered (df : DataFrame)
        (selected_positions : list string) (age_min age_max : Z)
        (top_n : Z) :
  let view := filtered_df df selected_positions (age_min, age_max) in
  let top := top_attack view top_n in
  Forall (fun t => In (top_Position t) selected_positions
                   /\ age_min <= top_Age t <= age_max
                   /\ exists r, In r df /\ t = top_columns r) top
  /\ (List.length top <= Z.to_nat top_n)%nat
  /\ (1 <= top_n -> (top = [] <-> view = [])).
Proof.
  intros view top. unfold top, top_attack. rewrite nlargest_unfold.
  split; [| split].
  - apply Forall_forall. intros t Ht.
    apply in_map_iff in Ht. destruct Ht as [r [<- Hr]].
    apply In_firstn_In in Hr. apply (proj1 (sort_by_In _ _ _)) in Hr.
    unfold view in Hr. rewrite filtered_df_filter in Hr.
    apply filter_In in Hr. destruct Hr as [Hr Hk].
    apply keeps_iff in Hk. simpl.
    split; [tauto | split; [tauto | now exists r]].
  - rewrite length_map, length_firstn. lia.
  - intros Hn. split.
    + intros E. apply map_eq_nil in E.
      apply (f_equal (@List.length Row)) in E.
      rewrite length_firstn, sort_by_length in E. simpl in E.
      destruct view; [reflexivity | simpl in E; lia].
    + intros ->. simpl. now rewrite firstn_nil.
Qed.

(** ** The cached loader *)

(** X15.  A read that fails is not cached: from an empty cache every call
    reads the file again until one read succeeds; that result is cached,
    and no later call reads the file, whatever it then holds.  [k] failed
    calls followed by a success and further calls cost [k + 1] reads. *)
Theorem load_data_retries (k r : nat) (d : DataFrame)
        (later : list FileState) :
  calls load_data (repeat None k) (mkProcess None r)
  = (repeat None k, mkProcess None (r + k))
  /\ calls load_data (repeat None k ++ Some d :: later) (mkProcess None r)
     = (repeat None k ++ Some d :: map (fun _ => Some d) later,
        mkProcess (Some d) (r + k + 1)).
Proof.
  revert r. induction k as [| k IH]; intros r.
  - split.
    + simpl. now rewrite Nat.add_0_r.
    + cbn [repeat app calls]. unfold load_data at 1, cache_data, read_csv.
      cbn.
      rewrite (calls_hit later (mkProcess (Some d) (S r)) d eq_refl).
      f_equal. f_equal. lia.
  - destruct (IH (S r)) as [IH1 IH2].
    split; cbn [repeat app calls];
      unfold load_data at 1, cache_data, read_csv; cbn.
    + rewrite IH1. f_equal. f_equal. lia.
    + rewrite IH2. f_equal. f_equal. lia.
Qed.

(** ** Correlations lie between -1 and 1 *)

Section CorrRange.
Local Open Scope R_scope.

Lemma cauchy_schwarz {A : Type} (u v : A -> R) (l : list A) :
  0 <= rsum (map (fun r => u r * u r) l)
  /\ 0 <= rsum (map (fun r => v r * v r) l)
  /\ rsum (map (fun r => u r * v r) l) * rsum (map (fun r => u r * v r) l)
     <= rsum (map (fun r => u r * u r) l)
        * rsum (map (fun r => v r * v r) l).
Proof.
  induction l as [| x l IH]; simpl; [lra |].
  destruct IH as [HA [HB HC]].
  set (A0 := rsum (map (fun r => u r * u r) l)) in *.
  set (B0 := rsum (map (fun r => v r * v r) l)) in *.
  set (C0 := rsum (map (fun r => u r * v r) l)) in *.
  set (a := u x). set (b := v x).
  pose proof (Rle_0_sqr a) as Ha. pose proof (Rle_0_sqr b) as Hb.
  unfold Rsqr in Ha, Hb.
  split; [lra | split; [lra |]].
  assert (Hmix : 2 * a * b * C0 <= a * a * B0 + A0 * (b * b)).
  { apply Rsqr_incr_0_var.
    - unfold Rsqr.
      pose proof (Rle_0_sqr (a * a * B0 - A0 * (b * b))) as H1.
      unfold Rsqr in H1.
      assert (H2 : 0 <= 4 * (a * a) * (b * b)) by nra.
      pose proof (Rmult_le_compat_l _ _ _ H2 HC) as H3.
      nra.
    - nra. }
  nra.
Qed.

Lemma combine_map_same {A : Type} (f g : A -> R) (l : list A) :
  combine (map f l) (map g l) = map (fun r => (f r, g r)) l.
Proof. induction l as [| x l IH]; simpl; [reflexivity | now rewrite IH]. Qed.

Lemma pearson_range {A : Type} (f g : A -> R) (l : list A) (c : R) :
  pearson (map f l) (map g l) = Some c -> -1 <= c <= 1.
Proof.
  unfold pearson.
  destruct (List.length (map f l) <? 1)%nat; [discriminate |].
  set (x := map f l). set (y := map g l).
  destruct (Req_dec_T (sqrt (ssqdm x * ssqdm y)) 0) as [| Hd];
    [discriminate |].
  intros E. injection E as <-.
  destruct (cauchy_schwarz (fun r => f r - rmean x) (fun r => g r - rmean y) l)
    as [Hx [Hy Hcs]].
  assert (Ex : ssqdm x
               = rsum (map (fun r => (f r - rmean x) * (f r - rmean x)) l)).
  { unfold ssqdm, x. now rewrite map_map. }
  assert (Ey : ssqdm y
               = rsum (map (fun r => (g r - rmean y) * (g r - rmean y)) l)).
  { unfold ssqdm, y. now rewrite map_map. }
  assert (Ec : covxy x y
               = rsum (map (fun r => (f r - rmean x) * (g r - rmean y)) l)).
  { unfold covxy, x, y. now rewrite combine_map_same, map_map. }
  rewrite <- Ex, <- Ey, <- Ec in *.
  set (P := ssqdm x * ssqdm y) in *.
  assert (HP : 0 <= P) by (unfold P; nra).
  pose proof (sqrt_pos P) as HD0.
  pose proof (sqrt_sqrt P HP) as HDD.
  set (D := sqrt P) in *.
  assert (HD : 0 < D) by lra.
  assert (Hlo : - D <= covxy x y) by nra.
  assert (Hhi : covxy x y <= D) by nra.
  pose proof (Rinv_0_lt_compat D HD) as Hinv.
  pose proof (Rinv_r D Hd) as Hone.
  unfold Rdiv. split; nra.
Qed.
End CorrRange.

(** X16.  Every entry of the correlation matrix that is a number (not
    NaN) lies between -1 and 1, the scale of the interpretation guide of
    tab 5. *)
Theorem corr_entries_in_range (view : DataFrame) (selected : list Column)
        (i j : nat) :
  match entry (corr selected view) i j with
  | Some (Some c) => (-1 <= c <= 1)%R
  | _ => True
  end.
Proof.
  rewrite corr_entry.
  destruct (nth_error selected i) as [ci |]; [| exact I].
  destruct (nth_error selected j) as [cj |]; [| exact I].
  destruct (pearson (series ci view) (series cj view)) as [c |] eqn:E;
    [| exact I].
  unfold series in E. exact (pearson_range _ _ _ _ E).
Qed.

(** ** What the heat map of tab 5 shows *)

Lemma entry_triu_ones (n i j : nat) :
  entry (triu_ones n) i j
  = if ((i <? n) && (j <? n))%nat then Some (i <=? j)%nat else None.
Proof.
  unfold entry, triu_ones. rewrite nth_error_map, nth_error_seq.
  destruct (Nat.ltb_spec i n); simpl; [| reflexivity].
  rewrite nth_error_map, nth_error_seq.
  destruct (Nat.ltb_spec j n); reflexivity.
Qed.

Lemma corr_length (selected : list Column) (view : DataFrame) :
  List.length (corr selected view) = List.length selected.
Proof. unfold corr. apply length_map. Qed.

(** X17.  Under the mask of tab 5 the heat map shows exactly the entries
    below the diagonal that are numbers: the diagonal, the upper triangle
    and the NaN cells are blank.  The correlation of two different
    selected columns is drawn in the row of the later column when it is a
    number, and nowhere else; it is blank when one of the two columns is
    constant on the view.  The hidden entry above the diagonal is the
    same cell. *)
Theorem tab5_shows_lower_triangle (view : DataFrame)
        (selected : list Column) :
  let M := corr selected view in
  let mask := triu_ones (List.length M) in
  ((2 <= List.length selected)%nat ->
   tab5 view selected = Chart (M, mask))
  /\ (forall i j c, shown M mask i j = Some c <->
                    (j < i)%nat /\ entry M i j = Some (Some c))
  /\ (forall i, shown M mask i i = None)
  /\ (forall i j ci cj,
        nth_error selected i = Some ci -> nth_error selected j = Some cj ->
        (j < i)%nat ->
        shown M mask i j = pearson (series ci view) (series cj view)
        /\ shown M mask j i = None
        /\ entry M j i = entry M i j
        /\ (constant_on ci view \/ constant_on cj view ->
            shown M mask i j = None)).
Proof.
  intros M mask.
  assert (Hshown : forall i j,
            shown M mask i j
            = if (j <? i)%nat
              then match entry M i j with
                   | Some (Some c) => Some c
                   | _ => None
                   end
              else None).
  { intros i j. unfold shown, mask. rewrite entry_triu_ones.
    assert (HlenM : List.length M = List.length selected)
      by apply corr_length.
    rewrite HlenM.
    destruct (Nat.ltb_spec i (List.length selected)) as [Hi | Hi]; simpl.
    - destruct (Nat.ltb_spec j (List.length selected)) as [Hj | Hj]; simpl.
      + destruct (Nat.leb_spec i j), (Nat.ltb_spec j i);
          try reflexivity; lia.
      + unfold M. rewrite corr_entry.
        apply nth_error_None in Hj. rewrite Hj.
        destruct (j <? i)%nat, (nth_error selected i); reflexivity.
    - unfold M. rewrite corr_entry.
      apply nth_error_None in Hi. rewrite Hi.
      now destruct (j <? i)%nat. }
  split; [| split; [| split]].
  - intros Hlen. unfold tab5. apply Nat.leb_le in Hlen. now rewrite Hlen.
  - intros i j c. rewrite Hshown.
    destruct (Nat.ltb_spec j i) as [Hlt | Hge].
    + destruct (entry M i j) as [[x |] |]; split;
        try (intros [_ E]; congruence); try discriminate.
      * intros E. injection E as <-. auto.
    + split; [discriminate | intros [Hlt _]; lia].
  - intros i. rewrite Hshown, Nat.ltb_irrefl. reflexivity.
  - intros i j ci cj Hi Hj Hlt. rewrite !Hshown.
    apply Nat.ltb_lt in Hlt as Hb. rewrite Hb.
    assert (Hb' : (i <? j)%nat = false) by (apply Nat.ltb_ge; lia).
    rewrite Hb'. unfold M. rewrite !corr_entry, Hi, Hj.
    split; [now destruct (pearson _ _) |].
    split; [reflexivity |].
    split; [f_equal; apply pearson_sym; now rewrite !series_length |].
    intros Hconst. rewrite pearson_degenerate; [reflexivity |].
    destruct Hconst as [H | H]; [left | right]; now apply series_constant.
Qed.

(** ** Groups come in alphabetical order *)

Lemma string_ltb_lt (a b : string) :
  String.ltb a b = true <-> OrderedTypeEx.String_as_OT.lt a b.
Proof.
  rewrite <- OrderedTypeEx.String_as_OT.cmp_lt.
  unfold String.ltb, OrderedTypeEx.String_as_OT.cmp.
  destruct (String.compare a b); split; congruence.
Qed.

Lemma string_ltb_trans (a b c : string) :
  String.ltb a b = true -> String.ltb b c = true -> String.ltb a c = true.
Proof.
  rewrite !string_ltb_lt. apply OrderedTypeEx.String_as_OT.lt_trans.
Qed.

Lemma string_ltb_irrefl (a : string) : String.ltb a a = false.
Proof.
  destruct (String.ltb a a) eqn:E; [| reflexivity].
  apply string_ltb_lt in E.
  apply OrderedTypeEx.String_as_OT.lt_not_eq in E.
  exfalso. apply E. reflexivity.
Qed.

Lemma string_ltb_total (a b : string) :
  String.ltb a b = true \/ a = b \/ String.ltb b a = true.
Proof.
  unfold String.ltb. rewrite (String.compare_antisym b a).
  destruct (String.compare a b) eqn:E; simpl; auto.
  right. left. now apply String.compare_eq_iff.
Qed.

Lemma string_ltb_asym (a b : string) :
  String.ltb a b = true -> String.ltb b a = false.
Proof.
  intros H. destruct (String.ltb b a) eqn:E; [| reflexivity].
  pose proof (string_ltb_trans _ _ _ H E) as Haa.
  now rewrite string_ltb_irrefl in Haa.
Qed.

Lemma string_ltb_negtrans (x y z : string) :
  String.ltb y x = false -> String.ltb z y = false ->
  String.ltb z x = false.
Proof.
  intros Hyx Hzy. destruct (String.ltb z x) eqn:E; [| reflexivity].
  destruct (string_ltb_total y x) as [H | [-> | H]].
  - congruence.
  - congruence.
  - pose proof (string_ltb_trans _ _ _ E H). congruence.
Qed.

Lemma sorted_keys_strict (keys : list string) :
  NoDup keys ->
  StronglySorted (fun a b => String.ltb a b = true)
                 (sort_by (fun x y => String.ltb y x) keys).
Proof.
  intros Hnd.
  assert (Hs : StronglySorted (before_ok (fun x y => String.ltb y x))
                 (sort_by (fun x y => String.ltb y x) keys)).
  { apply sort_by_sorted.
    - intros x y. apply string_ltb_asym.
    - intros x y z. apply string_ltb_negtrans. }
  assert (Hnd' : NoDup (sort_by (fun x y => String.ltb y x) keys))
    by exact (Permutation_NoDup (sort_by_perm _ keys) Hnd).
  induction Hs as [| a l Hl IH Ha]; constructor.
  - apply IH. now inversion Hnd'.
  - apply Forall_forall. intros b Hb.
    rewrite Forall_forall in Ha. specialize (Ha b Hb).
    unfold before_ok in Ha.
    destruct (string_ltb_total a b) as [H | [-> | H]];
      [exact H | | congruence].
    inversion Hnd'; subst. contradiction.
Qed.

(** X18.  The groups of [groupby] come in strictly ascending order of
    their key (the order of the character codes), so the columns of the
    heat map of tab 2 are the positions in alphabetical order. *)
Theorem position_skills_columns_sorted (view : DataFrame)
        (selected_skills : list Column) :
  StronglySorted (fun a b => String.ltb a b = true)
                 (map fst (groupby Position view))
  /\ columns (position_skills view selected_skills)
     = map fst (groupby Position view).
Proof.
  split; [| reflexivity].
  unfold groupby. rewrite map_map. simpl. rewrite map_id.
  apply sorted_keys_strict, unique_NoDup, String.eqb_eq.
Qed.

(** ** Transposition *)

Lemma map_nth_seq {A : Type} (d : A) (l : list A) :
  map (fun i => nth i l d) (seq 0 (List.length l)) = l.
Proof.
  induction l as [| a l IH]; [reflexivity |].
  cbn [List.length seq map nth]. f_equal.
  rewrite <- seq_shift, map_map. exact IH.
Qed.

Lemma transpose_involutive {I C V : Type} (d : V) (t : Table I C V) :
  List.length (index t) = List.length (values t) ->
  Forall (fun row => List.length row = List.length (columns t)) (values t) ->
  transpose d (transpose d t) = t.
Proof.
  destruct t as [idx cols vals]. simpl. intros Hlen Hrows.
  unfold transpose. simpl. f_equal.
  rewrite Hlen.
  transitivity (map (fun i => nth i vals []) (seq 0 (List.length vals)));
    [| apply map_nth_seq].
  apply map_ext_in. intros j Hj. apply in_seq in Hj.
  rewrite map_map.
  assert (Hrow : List.length (nth j vals []) = List.length cols).
  { rewrite Forall_forall in Hrows. apply Hrows, nth_In. lia. }
  transitivity (map (fun i => nth i (nth j vals []) d)
                    (seq 0 (List.length (nth j vals []))));
    [| apply map_nth_seq].
  rewrite Hrow. apply map_ext. intros j'.
  pose proof (map_nth (fun row : list V => nth j' row d) vals [] j) as Hm.
  cbv beta in Hm. rewrite <- Hm. f_equal. now destruct j'.
Qed.

(** X19.  Transposing the table of tab 2 gives back the grouped means it
    was made from: the cell of a skill and a position is the cell of that
    position and skill of [groupby('Position')[skills].mean()]. *)
Theorem position_skills_transpose_back (view : DataFrame)
        (selected_skills : list Column) :
  transpose None (position_skills view selected_skills)
  = groupby_mean Position selected_skills view.
Proof.
  unfold position_skills. apply transpose_involutive.
  - simpl. now rewrite !length_map.
  - simpl. apply Forall_forall. intros row Hrow.
    apply in_map_iff in Hrow. destruct Hrow as [g [<- _]].
    apply length_map.
Qed.

(** ** When the sidebar does not come up *)

Lemma default_age_range_attained (df : DataFrame) (lo hi : Z) :
  default_age_range df = Some (lo, hi) ->
  (exists r, In r df /\ Age r = lo) /\ (exists r, In r df /\ Age r = hi).
Proof.
  unfold default_age_range. destruct df as [| r0 df]; simpl;
    [discriminate |].
  intros E. injection E as <- <-.
  pose proof (fold_min_In (map Age df) (Age r0)) as Hmin.
  pose proof (fold_max_In (map Age df) (Age r0)) as Hmax.
  change (Age r0 :: map Age df) with (map Age (r0 :: df)) in Hmin, Hmax.
  apply in_map_iff in Hmin. apply in_map_iff in Hmax.
  destruct Hmin as [r [Er Hr]]. destruct Hmax as [r' [Er' Hr']].
  split; [now exists r | now exists r'].
Qed.

Lemma js_safe_iff (z : Z) :
  js_safe z = true <-> - (2 ^ 53 - 1) <= z <= 2 ^ 53 - 1.
Proof. unfold js_safe. rewrite andb_true_iff, !Z.leb_le. tauto. Qed.

(** X20.  The sidebar fails to come up - computing the slider's bounds or
    the slider itself raises - exactly when the data set has no row, or
    all its players have the same age, or some age is beyond what a
    JavaScript number holds exactly (magnitude above 2^53 - 1).  In every
    other case the slider starts at the least and greatest age. *)
Theorem age_range_raises_iff (df : DataFrame) :
  (age_range df = None <->
   df = []
   \/ (forall r r', In r df -> In r' df -> Age r = Age r')
   \/ (exists r, In r df /\ js_safe (Age r) = false))
  /\ (forall ar, age_range df = Some ar -> default_age_range df = Some ar).
Proof.
  split; [| intros ar E; now apply age_range_Some in E].
  unfold age_range, slider.
  destruct (default_age_range df) as [[lo hi] |] eqn:E.
  - pose proof (default_age_range_bounds df lo hi E) as Hb.
    destruct (default_age_range_attained df lo hi E)
      as [[rl [Hrl Hal]] [rh [Hrh Hah]]].
    split.
    + intros Hnone. right.
      destruct (Z.ltb_spec lo hi) as [Hlt | Hge]; simpl in Hnone.
      * right.
        destruct (js_safe lo) eqn:Elo; simpl in Hnone.
        -- destruct (js_safe hi) eqn:Ehi; [discriminate |].
           exists rh. now rewrite Hah.
        -- exists rl. now rewrite Hal.
      * left. intros r r' Hr Hr'.
        pose proof (Hb r Hr). pose proof (Hb r' Hr'). lia.
    + intros [-> | [Hsame | [r [Hr Hunsafe]]]].
      * discriminate.
      * destruct (Z.ltb_spec lo hi) as [Hlt | Hge]; [| reflexivity].
        specialize (Hsame rl rh Hrl Hrh). lia.
      * destruct (lo <? hi); [| reflexivity]. simpl.
        destruct (js_safe lo) eqn:Elo; [| reflexivity].
        destruct (js_safe hi) eqn:Ehi; [| reflexivity].
        apply js_safe_iff in Elo, Ehi. specialize (Hb r Hr).
        assert (Hs : js_safe (Age r) = true) by (apply js_safe_iff; lia).
        congruence.
  - split; [| reflexivity]. intros _. left.
    destruct df; [reflexivity | discriminate].
Qed.

(** ** Instances of the further conditional statements *)

Lemma filtered_df_monotone_witness :
  incl ["OH"%string] ["OH"%string; "MB"%string]
  /\ 18 <= 20 /\ 25 <= 30
  /\ Subseq (filtered_df example_df ["OH"%string] (20, 25))
            (filtered_df example_df ["OH"%string; "MB"%string] (18, 30)).
Proof.
  assert (Hincl : incl ["OH"%string] ["OH"%string; "MB"%string]).
  { intros x [<- | []]. simpl. auto. }
  split; [exact Hincl |]. split; [lia |]. split; [lia |].
  apply (filtered_df_monotone example_df ["OH"%string]
           ["OH"%string; "MB"%string] 20 25 18 30); [exact Hincl | lia | lia].
Defined.

Lemma filtered_df_inverted_range_witness :
  18 < 26 /\ filtered_df example_df ["OH"%string] (26, 18) = [].
Proof.
  split; [lia |].
  apply (filtered_df_inverted_range example_df ["OH"%string] 26 18). lia.
Defined.

Lemma default_age_range_tight_witness :
  default_age_range example_df = Some (20, 30)
  /\ (20 <= 30
      /\ (exists r, In r example_df /\ Age r = 20)
      /\ (exists r, In r example_df /\ Age r = 30)
      /\ forall lo' hi',
           filtered_df example_df (default_selected_positions example_df)
                       (lo', hi') = example_df ->
           lo' <= 20 /\ 30 <= hi').
Proof.
  split; [reflexivity |].
  apply (default_age_range_tight example_df 20 30). reflexivity.
Defined.

Lemma country_stats_prefix_witness :
  2 <= 3 /\ Prefix (country_stats sample_df 3) (country_stats sample_df 2).
Proof.
  split; [lia |]. apply (country_stats_prefix sample_df 2 3). lia.
Defined.

